(** * sbdd: a pass-through block device driver (src/sbdd.c)

    The driver exposes a virtual disk whose requests are cloned and sent to a
    backing block device.  A reference counter [refs_cnt] counts the clones in
    flight plus one baseline reference; [sbdd_delete] sets the [deleting]
    flag, drops the baseline and waits for the counter to reach zero before it
    releases the disk and the backing handle.

    The four functions of the driver are written below as programs over the
    kernel primitives they call.  One primitive call is one atomic step; a
    sequential runner gives the behaviour of a single function, and an
    interleaving semantics gives the behaviour of the module under concurrent
    submissions and completions. *)

From Stdlib Require Import ZArith Bool Lia String List.
Import ListNotations.
Local Open Scope list_scope.
Local Open Scope Z_scope.

(** ** Machine data *)

(** [atomic_t] is a 32-bit signed [int]; the kernel's atomics wrap. *)
Definition INT_MAX : Z := 2147483647.
Definition wrap_int (z : Z) : Z := (z + 2147483648) mod 4294967296 - 2147483648.

(** A pointer word is [NULL], one of the top [MAX_ERRNO] values, which
    encode a negated errno (include/linux/err.h), or the address of an
    object.  [ERR_PTR e] stands for the kernel's [ERR_PTR(-e)]; the errno is
    at most [MAX_ERRNO], so [PTR_ERR] of it fits the [int] it is assigned
    to. *)
Inductive ptr :=
| NULL
| ERR_PTR (e : positive)
| Ptr (addr : positive).

Definition MAX_ERRNO : Z := 4095.
Definition IS_ERR (p : ptr) : bool :=
  match p with ERR_PTR _ => true | _ => false end.
Definition PTR_ERR (p : ptr) : Z :=
  match p with
  | NULL => 0
  | ERR_PTR e => Z.neg e
  | Ptr a => Z.pos a
  end.
Definition non_null (p : ptr) : bool :=
  match p with NULL => false | _ => true end.
(** A pointer that may be dereferenced: neither [NULL] nor an encoded errno. *)
Definition valid_ptr (p : ptr) : bool :=
  match p with Ptr _ => true | _ => false end.
Definition ptr_eqb (p q : ptr) : bool :=
  match p, q with
  | NULL, NULL => true
  | ERR_PTR e, ERR_PTR e' => Pos.eqb e e'
  | Ptr a, Ptr a' => Pos.eqb a a'
  | _, _ => false
  end.

Definition SBDD_SECTOR_SHIFT : Z := 9.
Definition SBDD_SECTOR_SIZE : Z := Z.shiftl 1 SBDD_SECTOR_SHIFT.
Definition SBDD_NAME : string := "sbdd".
Definition dev_path : string := "/dev/sdb".

(** [blk_status_t] (include/linux/blk_types.h). *)
Definition BLK_STS_OK : Z := 0.
Definition BLK_STS_NOSPC : Z := 3.
Definition BLK_STS_IOERR : Z := 10.

(** The completion callbacks the driver installs in [bi_end_io]. *)
Inductive bio_end_io_t := end_io_sbdd.

(** [struct bio], reduced to the fields the driver touches.  [bi_id] stands
    for the identity (address) of the request. *)
#[local] Unset Elimination Schemes.
Inductive bio : Type := Bio {
  bi_id : nat;
  bi_status : Z;
  bi_end_io : option bio_end_io_t;
  bi_private : option bio
}.
#[local] Set Elimination Schemes.

Definition set_bi_status (b : bio) (s : Z) : bio :=
  Bio (bi_id b) s (bi_end_io b) (bi_private b).
Definition set_bi_private (b : bio) (p : option bio) : bio :=
  Bio (bi_id b) (bi_status b) (bi_end_io b) p.
Definition set_bi_end_io (b : bio) (f : option bio_end_io_t) : bio :=
  Bio (bi_id b) (bi_status b) f (bi_private b).

(** [struct sbdd].  The wait queue [exitwait] carries no data: it is
    modelled by the enabling condition of [wait_event]. *)
Record sbdd := {
  deleting : Z;
  refs_cnt : Z;
  capacity : Z;
  gd : ptr;
  bd_handle : ptr
}.

(** [static struct sbdd __sbdd = { 0 }] *)
Definition sbdd_zero : sbdd :=
  {| deleting := 0; refs_cnt := 0; capacity := 0; gd := NULL; bd_handle := NULL |}.

(** The gendisk object behind [__sbdd.gd], as the driver configures it. *)
Record gendisk := {
  logical_block_size : Z;
  physical_block_size : Z;
  fops_set : bool;
  private_data_set : bool;
  disk_name : string;
  gd_capacity : Z
}.

Definition gendisk_zero : gendisk :=
  {| logical_block_size := 0; physical_block_size := 0; fops_set := false;
     private_data_set := false; disk_name := EmptyString; gd_capacity := 0 |}.

(** ** Kernel primitives *)

Inductive avar := a_deleting | a_refs_cnt.
(** The pointer fields of [__sbdd]. *)
Inductive field := f_gd | f_bd_handle.

(** The calls the driver makes, indexed by their result type.  [load],
    [store], [load_capacity] and [store_capacity] are plain accesses to a
    field of [__sbdd]. *)
Inductive call : Type -> Type :=
| atomic_set (v : avar) (i : Z) : call unit
| atomic_read (v : avar) : call Z
| atomic_inc_not_zero (v : avar) : call bool
| atomic_dec_and_test (v : avar) : call bool
| atomic_dec_if_positive (v : avar) : call Z
| load (f : field) : call ptr
| store (f : field) (x : ptr) : call unit
| load_capacity : call Z
| store_capacity (n : Z) : call unit
| bdev_open_by_path (path : string) : call ptr
| get_capacity (h : ptr) : call Z
| init_waitqueue_head : call unit
| blk_alloc_disk : call ptr
| blk_queue_logical_block_size (g : ptr) (sz : Z) : call unit
| blk_queue_physical_block_size (g : ptr) (sz : Z) : call unit
| gd_set_fops (g : ptr) : call unit
| gd_set_private_data (g : ptr) : call unit
| scnprintf_disk_name (g : ptr) (name : string) : call unit
| set_capacity (g : ptr) (n : Z) : call unit
| add_disk (g : ptr) : call Z
| wait_event_zero (v : avar) : call unit
| wake_up : call unit
| del_gendisk (g : ptr) : call unit
| put_disk (g : ptr) : call unit
| bdev_release (h : ptr) : call unit
| bio_split_to_limits (b : bio) : call (option bio)
| bio_alloc_clone (h : ptr) (b : bio) : call (option bio)
| bio_io_error (b : bio) : call unit
| bio_endio (b : bio) : call unit
| bio_put (b : bio) : call unit
| submit_bio (b : bio) : call unit.

(** What is observable: every kernel call that returned, with its result;
    a kernel call that oopsed inside the callee; the arrival of a request at
    the driver's [submit_bio] method; and the backing device invoking a
    clone's completion callback. *)
Inductive event : Type :=
| Ev {R : Type} (c : call R) (r : R)
| EvOops {R : Type} (c : call R)
| EvArrive (b : bio)
| EvComplete (c : bio).

(** What [bio_split_to_limits] may answer: the request was ended by the block
    layer ([NULL]), it fits as it is, or a fresh front part was split off (the
    remainder goes back to the block layer). *)
Inductive split_result := SplitEnded | SplitWhole | SplitFront.

(** The answers of the collaborators during one call. *)
Record env := {
  env_open : ptr;        (* bdev_open_by_path: a handle or an ERR_PTR *)
  env_sectors : Z;       (* get_capacity of the backing disk *)
  env_disk : ptr;        (* blk_alloc_disk *)
  env_add_disk : Z;      (* add_disk: 0 or an errno *)
  env_split : split_result;
  env_clone : bool       (* bio_alloc_clone succeeds *)
}.

Record world := {
  dev : sbdd;              (* __sbdd *)
  disk : gendisk;
  registered : bool;       (* the disk is in the host's routing table *)
  backing : list bio;      (* clones submitted to the backing device, not yet completed *)
  clones : list nat;       (* clones allocated and not yet released by bio_put *)
  next_id : nat;           (* next fresh request identity *)
  trace : list event       (* most recent first *)
}.

Definition world0 : world :=
  {| dev := sbdd_zero; disk := gendisk_zero; registered := false; backing := [];
     clones := []; next_id := 0; trace := [] |}.

Definition with_dev (w : world) (d : sbdd) : world :=
  {| dev := d; disk := disk w; registered := registered w; backing := backing w;
     clones := clones w; next_id := next_id w; trace := trace w |}.
Definition with_disk (w : world) (g : gendisk) : world :=
  {| dev := dev w; disk := g; registered := registered w; backing := backing w;
     clones := clones w; next_id := next_id w; trace := trace w |}.
Definition with_registered (w : world) (b : bool) : world :=
  {| dev := dev w; disk := disk w; registered := b; backing := backing w;
     clones := clones w; next_id := next_id w; trace := trace w |}.
Definition with_backing (w : world) (l : list bio) : world :=
  {| dev := dev w; disk := disk w; registered := registered w; backing := l;
     clones := clones w; next_id := next_id w; trace := trace w |}.
Definition with_clones (w : world) (l : list nat) : world :=
  {| dev := dev w; disk := disk w; registered := registered w; backing := backing w;
     clones := l; next_id := next_id w; trace := trace w |}.
Definition bump_id (w : world) : world :=
  {| dev := dev w; disk := disk w; registered := registered w; backing := backing w;
     clones := clones w; next_id := S (next_id w); trace := trace w |}.
Definition log (ev : event) (w : world) : world :=
  {| dev := dev w; disk := disk w; registered := registered w; backing := backing w;
     clones := clones w; next_id := next_id w; trace := ev :: trace w |}.

Definition get_avar (v : avar) (d : sbdd) : Z :=
  match v with a_deleting => deleting d | a_refs_cnt => refs_cnt d end.
Definition set_avar (v : avar) (x : Z) (d : sbdd) : sbdd :=
  match v with
  | a_deleting => {| deleting := x; refs_cnt := refs_cnt d; capacity := capacity d;
                     gd := gd d; bd_handle := bd_handle d |}
  | a_refs_cnt => {| deleting := deleting d; refs_cnt := x; capacity := capacity d;
                     gd := gd d; bd_handle := bd_handle d |}
  end.
Definition get_field (f : field) (d : sbdd) : ptr :=
  match f with f_gd => gd d | f_bd_handle => bd_handle d end.
Definition set_capacity_field (x : Z) (d : sbdd) : sbdd :=
  {| deleting := deleting d; refs_cnt := refs_cnt d; capacity := x;
     gd := gd d; bd_handle := bd_handle d |}.
Definition set_field (f : field) (x : ptr) (d : sbdd) : sbdd :=
  match f with
  | f_gd => {| deleting := deleting d; refs_cnt := refs_cnt d; capacity := capacity d;
               gd := x; bd_handle := bd_handle d |}
  | f_bd_handle => {| deleting := deleting d; refs_cnt := refs_cnt d; capacity := capacity d;
                      gd := gd d; bd_handle := x |}
  end.

Definition set_lbs (g : gendisk) (z : Z) : gendisk :=
  {| logical_block_size := z; physical_block_size := physical_block_size g;
     fops_set := fops_set g; private_data_set := private_data_set g;
     disk_name := disk_name g; gd_capacity := gd_capacity g |}.
Definition set_pbs (g : gendisk) (z : Z) : gendisk :=
  {| logical_block_size := logical_block_size g; physical_block_size := z;
     fops_set := fops_set g; private_data_set := private_data_set g;
     disk_name := disk_name g; gd_capacity := gd_capacity g |}.
Definition set_fops (g : gendisk) : gendisk :=
  {| logical_block_size := logical_block_size g; physical_block_size := physical_block_size g;
     fops_set := true; private_data_set := private_data_set g;
     disk_name := disk_name g; gd_capacity := gd_capacity g |}.
Definition set_private_data (g : gendisk) : gendisk :=
  {| logical_block_size := logical_block_size g; physical_block_size := physical_block_size g;
     fops_set := fops_set g; private_data_set := true;
     disk_name := disk_name g; gd_capacity := gd_capacity g |}.
Definition set_disk_name (g : gendisk) (s : string) : gendisk :=
  {| logical_block_size := logical_block_size g; physical_block_size := physical_block_size g;
     fops_set := fops_set g; private_data_set := private_data_set g;
     disk_name := s; gd_capacity := gd_capacity g |}.
Definition set_gd_capacity (g : gendisk) (n : Z) : gendisk :=
  {| logical_block_size := logical_block_size g; physical_block_size := physical_block_size g;
     fops_set := fops_set g; private_data_set := private_data_set g;
     disk_name := disk_name g; gd_capacity := n |}.

Definition remove_id (i : nat) (l : list nat) : list nat :=
  filter (fun j => negb (Nat.eqb i j)) l.

(** A request freshly initialised by the block layer ([bio_init]). *)
Definition fresh_bio (i : nat) : bio := Bio i BLK_STS_OK None None.

(** What a call does.  [Sleeps]: the caller sleeps in [wait_event], its
    condition being false.  [Oopses]: the callee reads through the pointer it
    was given, which is [NULL] or an encoded errno, and the thread dies in
    it. *)
Inductive answer (R : Type) : Type :=
| Returns (r : R) (w : world)
| Sleeps
| Oopses (w : world).
Arguments Returns {R} r w.
Arguments Sleeps {R}.
Arguments Oopses {R} w.

(** The effect of one call.  [del_gendisk] reads the disk it is given
    ([disk_live]) and [bdev_release] reads [handle->bdev] before anything
    else (block/genhd.c, block/bdev.c): neither checks for [NULL] or for an
    error pointer.  [put_disk] does nothing on [NULL] and reads the disk
    otherwise. *)
Definition perform {R : Type} (e : env) (c : call R) (w : world) : answer R :=
  match c in call T return answer T with
  | atomic_set v i => Returns tt (with_dev w (set_avar v i (dev w)))
  | atomic_read v => Returns (get_avar v (dev w)) w
  | atomic_inc_not_zero v =>
      let x := get_avar v (dev w) in
      if x =? 0 then Returns false w
      else Returns true (with_dev w (set_avar v (wrap_int (x + 1)) (dev w)))
  | atomic_dec_and_test v =>
      let x := wrap_int (get_avar v (dev w) - 1) in
      Returns (x =? 0) (with_dev w (set_avar v x (dev w)))
  | atomic_dec_if_positive v =>
      let d := wrap_int (get_avar v (dev w) - 1) in
      if d <? 0 then Returns d w else Returns d (with_dev w (set_avar v d (dev w)))
  | load f => Returns (get_field f (dev w)) w
  | store f x => Returns tt (with_dev w (set_field f x (dev w)))
  | load_capacity => Returns (capacity (dev w)) w
  | store_capacity n => Returns tt (with_dev w (set_capacity_field n (dev w)))
  | bdev_open_by_path _ => Returns (env_open e) w
  | get_capacity _ => Returns (env_sectors e) w
  | init_waitqueue_head => Returns tt w
  | blk_alloc_disk => Returns (env_disk e) (with_disk w gendisk_zero)
  | blk_queue_logical_block_size _ sz => Returns tt (with_disk w (set_lbs (disk w) sz))
  | blk_queue_physical_block_size _ sz => Returns tt (with_disk w (set_pbs (disk w) sz))
  | gd_set_fops _ => Returns tt (with_disk w (set_fops (disk w)))
  | gd_set_private_data _ => Returns tt (with_disk w (set_private_data (disk w)))
  | scnprintf_disk_name _ s => Returns tt (with_disk w (set_disk_name (disk w) s))
  | set_capacity _ n => Returns tt (with_disk w (set_gd_capacity (disk w) n))
  | add_disk _ =>
      let r := env_add_disk e in
      Returns r (if r =? 0 then with_registered w true else w)
  | wait_event_zero v => if get_avar v (dev w) =? 0 then Returns tt w else Sleeps
  | wake_up => Returns tt w
  | del_gendisk g =>
      if valid_ptr g then Returns tt (with_registered w false) else Oopses w
  | put_disk g => if IS_ERR g then Oopses w else Returns tt w
  | bdev_release h => if valid_ptr h then Returns tt w else Oopses w
  | bio_split_to_limits b =>
      match env_split e with
      | SplitEnded => Returns None w
      | SplitWhole => Returns (Some b) w
      | SplitFront => Returns (Some (fresh_bio (next_id w))) (bump_id w)
      end
  | bio_alloc_clone _ _ =>
      if env_clone e
      then Returns (Some (fresh_bio (next_id w)))
                   (bump_id (with_clones w (next_id w :: clones w)))
      else Returns None w
  | bio_io_error _ => Returns tt w
  | bio_endio _ => Returns tt w
  | bio_put c => Returns tt (with_clones w (remove_id (bi_id c) (clones w)))
  | submit_bio c => Returns tt (with_backing w (backing w ++ [c]))
  end.

(** A call and its record in the trace. *)
Definition exec {R : Type} (e : env) (c : call R) (w : world) : answer R :=
  match perform e c w with
  | Returns r w' => Returns r (log (Ev c r) w')
  | Sleeps => Sleeps
  | Oopses w' => Oopses (log (EvOops c) w')
  end.

(** ** Programs *)

(** A program is a tree of calls; [Oops] is a kernel oops (a dereference of
    [NULL] or of an encoded errno, by the driver or inside a callee), after
    which the thread is dead. *)
Inductive prog (A : Type) : Type :=
| Ret (a : A)
| Oops
| Call {R : Type} (c : call R) (k : R -> prog A).
Arguments Ret {A} a.
Arguments Oops {A}.
Arguments Call {A R} c k.

Fixpoint bind {A B : Type} (p : prog A) (f : A -> prog B) : prog B :=
  match p with
  | Ret a => f a
  | Oops => Oops
  | Call c k => Call c (fun r => bind (k r) f)
  end.

Definition do {R : Type} (c : call R) : prog R := Call c Ret.

Declare Scope prog_scope.
Delimit Scope prog_scope with prog.
Notation "x <- p ;; q" := (bind p (fun x => q))
  (at level 61, p at next level, right associativity) : prog_scope.
Notation "p ;; q" := (bind p (fun _ => q))
  (at level 61, right associativity) : prog_scope.
Local Open Scope prog_scope.

(** [pr_info] and [pr_err] only write to the kernel log. *)
Definition pr_info (msg : string) : prog unit := Ret tt.
Definition pr_err (msg : string) : prog unit := Ret tt.

(** [p->field] *)
Definition deref (p : ptr) : prog unit := if valid_ptr p then Ret tt else Oops.
Definition deref_bio (p : option bio) : prog bio :=
  match p with Some b => Ret b | None => Oops end.

(** ** The driver *)

(** I/O completion method. *)
Definition sbdd_bio_endio (bio_clone : bio) : prog unit :=
  (if negb (bi_status bio_clone =? BLK_STS_OK)
   then orig <- deref_bio (bi_private bio_clone) ;; do (bio_io_error orig)
   else orig <- deref_bio (bi_private bio_clone) ;; do (bio_endio orig)) ;;
  do (bio_put bio_clone) ;;
  z <- do (atomic_dec_and_test a_refs_cnt) ;;
  if (z : bool) then do wake_up else Ret tt.

(** The [end_io] dispatch of the block layer. *)
Definition end_io (f : bio_end_io_t) : bio -> prog unit :=
  match f with end_io_sbdd => sbdd_bio_endio end.

Definition sbdd_submit_bio (bio0 : bio) : prog unit :=
  obio <- do (bio_split_to_limits bio0) ;;
  match obio with
  | None => Ret tt
  | Some bio =>
      h <- do (load f_bd_handle) ;;
      deref h ;;
      oclone <- do (bio_alloc_clone h bio) ;;
      match oclone with
      | None => do (bio_io_error bio)
      | Some bio_clone =>
          d <- do (atomic_read a_deleting) ;;
          if negb (d =? 0) then do (bio_io_error bio)
          else
            ok <- do (atomic_inc_not_zero a_refs_cnt) ;;
            if negb ok then do (bio_io_error bio)
            else
              let bio_clone := set_bi_private bio_clone (Some bio) in
              let bio_clone := set_bi_end_io bio_clone (Some end_io_sbdd) in
              do (submit_bio bio_clone)
      end
  end.

Definition sbdd_create : prog Z :=
  pr_info "opening target blk device" ;;
  h <- do (bdev_open_by_path dev_path) ;;
  do (store f_bd_handle h) ;;
  if IS_ERR h then
    pr_err "bdev_open_by_path() failed" ;;
    Ret (-1)
  else
    pr_info "setting capacity" ;;
    deref h ;;
    cap <- do (get_capacity h) ;;
    do (store_capacity cap) ;;
    do init_waitqueue_head ;;
    pr_info "allocating disk" ;;
    g <- do blk_alloc_disk ;;
    do (store f_gd g) ;;
    if IS_ERR g then
      pr_err "blk_alloc_disk() failed" ;;
      let ret := PTR_ERR g in
      do (store f_gd NULL) ;;
      Ret ret
    else
      deref g ;;
      do (blk_queue_logical_block_size g SBDD_SECTOR_SIZE) ;;
      do (blk_queue_physical_block_size g SBDD_SECTOR_SIZE) ;;
      do (gd_set_fops g) ;;
      do (gd_set_private_data g) ;;
      do (scnprintf_disk_name g SBDD_NAME) ;;
      cap <- do load_capacity ;;
      do (set_capacity g cap) ;;
      do (atomic_set a_refs_cnt 1) ;;
      pr_info "adding disk" ;;
      ret <- do (add_disk g) ;;
      (if negb (ret =? 0) then pr_err "add_disk() failed" else Ret tt) ;;
      Ret ret.

Definition sbdd_delete : prog unit :=
  do (atomic_set a_deleting 1) ;;
  do (atomic_dec_if_positive a_refs_cnt) ;;
  do (wait_event_zero a_refs_cnt) ;;
  g <- do (load f_gd) ;;
  (if non_null g then
     pr_info "deleting disk" ;;
     do (del_gendisk g) ;;
     do (put_disk g)
   else Ret tt) ;;
  h <- do (load f_bd_handle) ;;
  if non_null h then
    pr_info "releasing blk device handle" ;;
    do (bdev_release h)
  else Ret tt.

Definition sbdd_init : prog Z :=
  pr_info "starting initialization..." ;;
  ret <- sbdd_create ;;
  (if negb (ret =? 0) then
     pr_err "initialization failed" ;;
     sbdd_delete
   else pr_info "initialization complete") ;;
  Ret ret.

Definition sbdd_exit : prog unit :=
  pr_info "exiting..." ;;
  sbdd_delete ;;
  pr_info "exiting complete".

(** The life of the module: [module_init], and [module_exit] only when
    initialisation succeeded. *)
Definition module_life : prog unit :=
  ret <- sbdd_init ;;
  if ret =? 0 then sbdd_exit else Ret tt.

(** ** Running a program *)

Inductive outcome (A : Type) : Type :=
| Done (a : A) (w : world)
| Crashed (w : world)
| Blocked (w : world).
Arguments Done {A} a w.
Arguments Crashed {A} w.
Arguments Blocked {A} w.

(** One thread alone, the collaborators answering as [e] says. *)
Fixpoint run {A : Type} (e : env) (p : prog A) (w : world) : outcome A :=
  match p with
  | Ret a => Done a w
  | Oops => Crashed w
  | Call c k =>
      match exec e c w with
      | Returns r w' => run e (k r) w'
      | Sleeps => Blocked w
      | Oopses w' => Crashed w'
      end
  end.

(** One step of a thread.  A call that oopses is a step to [Oops]. *)
Definition tstep {A : Type} (e : env) (p : prog A) (w : world) : option (prog A * world) :=
  match p with
  | Call c k =>
      match exec e c w with
      | Returns r w' => Some (k r, w')
      | Sleeps => None
      | Oopses w' => Some (Oops, w')
      end
  | _ => None
  end.

Fixpoint steps {A : Type} (n : nat) (e : env) (p : prog A) (w : world) : prog A * world :=
  match n with
  | O => (p, w)
  | S n' =>
      match tstep e p w with
      | Some (p', w') => steps n' e p' w'
      | None => (p, w)
      end
  end.

(** ** The module under concurrency *)

(** The lifecycle thread runs [module_life]; every request handed to the
    driver runs [sbdd_submit_bio] in a thread of its own, and every completion
    signalled by the backing device runs the clone's [bi_end_io].  A thread
    that has returned leaves its pool. *)
Record system := {
  mem : world;
  life : prog unit;
  submitters : list (prog unit);
  completers : list (prog unit)
}.

Definition system0 : system :=
  {| mem := world0; life := module_life; submitters := []; completers := [] |}.

Definition put_back (l1 : list (prog unit)) (t : prog unit) (l2 : list (prog unit))
  : list (prog unit) :=
  match t with
  | Ret _ => l1 ++ l2
  | _ => l1 ++ t :: l2
  end.

Definition spawn_end_io (c : bio) : list (prog unit) :=
  match bi_end_io c with
  | Some f => [end_io f c]
  | None => []
  end.

Inductive actor := Lifecycle | Arrival | Submitter | Backing | Completer.

Inductive step : system -> actor -> system -> Prop :=
| step_life s e t' w' :
    tstep e (life s) (mem s) = Some (t', w') ->
    step s Lifecycle
      {| mem := w'; life := t'; submitters := submitters s; completers := completers s |}
| step_arrive s :
    registered (mem s) = true ->
    step s Arrival
      {| mem := log (EvArrive (fresh_bio (next_id (mem s)))) (bump_id (mem s));
         life := life s;
         submitters := submitters s ++ [sbdd_submit_bio (fresh_bio (next_id (mem s)))];
         completers := completers s |}
| step_submit s e l1 t l2 t' w' :
    submitters s = l1 ++ t :: l2 ->
    tstep e t (mem s) = Some (t', w') ->
    step s Submitter
      {| mem := w'; life := life s; submitters := put_back l1 t' l2;
         completers := completers s |}
| step_backing s l1 c l2 st :
    backing (mem s) = l1 ++ c :: l2 ->
    step s Backing
      {| mem := log (EvComplete (set_bi_status c st)) (with_backing (mem s) (l1 ++ l2));
         life := life s; submitters := submitters s;
         completers := completers s ++ spawn_end_io (set_bi_status c st) |}
| step_endio s e l1 t l2 t' w' :
    completers s = l1 ++ t :: l2 ->
    tstep e t (mem s) = Some (t', w') ->
    step s Completer
      {| mem := w'; life := life s; submitters := submitters s;
         completers := put_back l1 t' l2 |}.

(** Requests inside the driver or pending at the backing device. *)
Definition in_driver (s : system) : Z :=
  Z.of_nat (length (submitters s) + length (backing (mem s)) + length (completers s)).

(** The executions in which fewer than [INT_MAX] requests are ever inside
    the driver at once, so that the 32-bit counter does not overflow. *)
Inductive reachable : system -> Prop :=
| reach_init : reachable system0
| reach_step s a s' :
    reachable s -> step s a s' -> in_driver s' < INT_MAX -> reachable s'.

Definition quiescent (s : system) : Prop :=
  submitters s = [] /\ completers s = [] /\ backing (mem s) = [].

(** ** Observations on a trace *)

Definition is_dec (ev : event) : bool :=
  match ev with
  | Ev c _ => match c with atomic_dec_and_test a_refs_cnt => true | _ => false end
  | _ => false
  end.

Definition is_inc_ok (ev : event) : bool :=
  match ev with
  | Ev c r =>
      match c in call T return T -> bool with
      | atomic_inc_not_zero a_refs_cnt => fun ok => ok
      | _ => fun _ => false
      end r
  | _ => false
  end.

(** [atomic_inc_not_zero] found the counter at zero. *)
Definition is_inc_fail (ev : event) : bool :=
  match ev with
  | Ev c r =>
      match c in call T return T -> bool with
      | atomic_inc_not_zero a_refs_cnt => fun ok => negb ok
      | _ => fun _ => false
      end r
  | _ => false
  end.

Definition is_submit (ev : event) : bool :=
  match ev with
  | Ev c _ => match c with submit_bio _ => true | _ => false end
  | _ => false
  end.

Definition is_put (ev : event) : bool :=
  match ev with
  | Ev c _ => match c with bio_put _ => true | _ => false end
  | _ => false
  end.

(** The release calls of [sbdd_delete], whether they returned or not. *)
Definition is_disk_release (ev : event) : bool :=
  match ev with
  | Ev c _ | EvOops c => match c with del_gendisk _ | put_disk _ => true | _ => false end
  | _ => false
  end.

Definition is_handle_release (ev : event) : bool :=
  match ev with
  | Ev c _ | EvOops c => match c with bdev_release _ => true | _ => false end
  | _ => false
  end.

(** The completion signal a call delivers: the request and its status.
    [bio_io_error] sets [BLK_STS_IOERR] before it ends the request;
    [bio_endio] ends it with the status it carries. *)
Definition delivered (ev : event) : option (nat * Z) :=
  match ev with
  | Ev c _ =>
      match c with
      | bio_io_error b => Some (bi_id b, BLK_STS_IOERR)
      | bio_endio b => Some (bi_id b, bi_status b)
      | _ => None
      end
  | _ => None
  end.

Definition orig_id (c : bio) : nat :=
  match bi_private c with Some o => bi_id o | None => O end.

(** The original request of a clone handed to the backing device. *)
Definition admitted (ev : event) : option nat :=
  match ev with
  | Ev c _ => match c with submit_bio cl => Some (orig_id cl) | _ => None end
  | _ => None
  end.

Fixpoint pick {A B : Type} (f : A -> option B) (l : list A) : list B :=
  match l with
  | [] => []
  | x :: l' => match f x with Some y => y :: pick f l' | None => pick f l' end
  end.

Definition completions (tr : list event) : list (nat * Z) := pick delivered tr.
Definition completed (tr : list event) : list nat := map fst (completions tr).
Definition submitted (tr : list event) : list nat := pick admitted tr.
Definition count (f : event -> bool) (tr : list event) : Z :=
  Z.of_nat (length (filter f tr)).
Definition occ (i : nat) (l : list nat) : nat := count_occ Nat.eq_dec l i.
(** How many completion signals request [b] has received. *)
Definition signals (b : nat) (tr : list event) : nat := occ b (completed tr).

(** ** Thread protocols

    Each kind of thread follows a small automaton over the calls it makes.
    The phase says what the thread holds: a reference on [refs_cnt], the
    duty to complete a request. *)

Section Protocol.
Variable phase : Type.
Variable next : phase -> forall R : Type, call R -> R -> option phase.
Variable final : phase -> Prop.
Variable may_oops : Prop.

Fixpoint conforms {A : Type} (ph : phase) (p : prog A) : Prop :=
  match p with
  | Ret _ => final ph
  | Oops => may_oops
  | Call c k =>
      forall r, match next ph _ c r with
                | Some ph' => conforms ph' (k r)
                | None => False
                end
  end.
End Protocol.

Inductive sub_phase :=
| S_Fresh (a : nat)      (* owns the arriving request *)
| S_Own (b : nat)        (* owns the request to forward, no reference *)
| S_Checked (b : nat)    (* has read deleting = 0 *)
| S_Ref (b : nat)        (* holds a reference *)
| S_Done.

Definition sub_next (ph : sub_phase) (R : Type) (c : call R) : R -> option sub_phase :=
  match c in call T return T -> option sub_phase with
  | bio_split_to_limits x => fun r =>
      match ph with
      | S_Fresh a =>
          if Nat.eqb (bi_id x) a
          then Some (match r with Some b => S_Own (bi_id b) | None => S_Done end)
          else None
      | _ => None
      end
  | load _ => fun _ => match ph with S_Own _ => Some ph | _ => None end
  | bio_alloc_clone _ _ => fun _ => match ph with S_Own _ => Some ph | _ => None end
  | atomic_read a_deleting => fun v =>
      match ph with
      | S_Own b => Some (if v =? 0 then S_Checked b else S_Own b)
      | _ => None
      end
  | atomic_inc_not_zero a_refs_cnt => fun ok =>
      match ph with
      | S_Checked b => Some (if (ok : bool) then S_Ref b else S_Own b)
      | _ => None
      end
  | bio_io_error x => fun _ =>
      match ph with
      | S_Own b => if Nat.eqb (bi_id x) b then Some S_Done else None
      | _ => None
      end
  | submit_bio cl => fun _ =>
      match ph, bi_private cl, bi_end_io cl with
      | S_Ref b, Some o, Some end_io_sbdd =>
          if Nat.eqb (bi_id o) b then Some S_Done else None
      | _, _, _ => None
      end
  | _ => fun _ => None
  end.

Definition sub_ok : sub_phase -> prog unit -> Prop :=
  conforms sub_phase sub_next (fun ph => ph = S_Done) True.

Inductive endio_phase :=
| E_Owes (b : nat)       (* holds a reference, owes request b its completion *)
| E_Ref                  (* holds a reference *)
| E_Done.

Definition endio_next (ph : endio_phase) (R : Type) (c : call R) : R -> option endio_phase :=
  match c in call T return T -> option endio_phase with
  | bio_io_error x | bio_endio x => fun _ =>
      match ph with
      | E_Owes b => if Nat.eqb (bi_id x) b then Some E_Ref else None
      | _ => None
      end
  | bio_put _ => fun _ => match ph with E_Ref => Some E_Ref | _ => None end
  | atomic_dec_and_test a_refs_cnt => fun _ =>
      match ph with E_Ref => Some E_Done | _ => None end
  | wake_up => fun _ => match ph with E_Done => Some E_Done | _ => None end
  | _ => fun _ => None
  end.

Definition endio_ok : endio_phase -> prog unit -> Prop :=
  conforms endio_phase endio_next (fun ph => ph = E_Done) False.

(** Where a deletion started from. *)
Inductive origin :=
| FromInit       (* creation failed before the counter was set *)
| FromFailed     (* add_disk failed *)
| FromLive.      (* module exit *)

Inductive life_phase :=
| L_Init (h_ok g_ok : bool)   (* creating; the stored handle / disk pointers are valid *)
| L_Based                     (* refs_cnt = 1, disk not yet added *)
| L_Failed                    (* add_disk failed *)
| L_Live                      (* add_disk succeeded *)
| L_Del1 (o : origin)         (* deleting set *)
| L_Del2 (o : origin)         (* baseline dropped *)
| L_D0 (o : origin)           (* the drain wait has returned *)
| L_D1 (o : origin) (g : ptr) (* __sbdd.gd read, non-NULL *)
| L_D2 (o : origin).          (* disk removed, or there is none *)

Definition life_next (ph : life_phase) (R : Type) (c : call R) : R -> option life_phase :=
  match c in call T return T -> option life_phase with
  | store f x => fun _ =>
      match ph with
      | L_Init h g =>
          Some (match f with
                | f_bd_handle => L_Init (valid_ptr x) g
                | f_gd => L_Init h (valid_ptr x)
                end)
      | _ => None
      end
  | bdev_open_by_path _ | blk_alloc_disk => fun _ =>
      match ph with L_Init _ _ => Some ph | _ => None end
  | get_capacity _ | load_capacity => fun _ =>
      match ph with L_Init _ _ => Some ph | _ => None end
  | store_capacity _ | init_waitqueue_head | blk_queue_logical_block_size _ _
  | blk_queue_physical_block_size _ _ | gd_set_fops _ | gd_set_private_data _
  | scnprintf_disk_name _ _ | set_capacity _ _ => fun _ =>
      match ph with L_Init _ _ => Some ph | _ => None end
  | load f => fun r =>
      match ph with
      | L_Init _ _ | L_D2 _ => Some ph
      | L_D0 o =>
          Some (match f with
                | f_gd => if non_null r then L_D1 o r else L_D2 o
                | f_bd_handle => ph
                end)
      | _ => None
      end
  | atomic_set a_refs_cnt i => fun _ =>
      match ph with
      | L_Init true true => if i =? 1 then Some L_Based else None
      | _ => None
      end
  | add_disk _ => fun r =>
      match ph with
      | L_Based => Some (if r =? 0 then L_Live else L_Failed)
      | _ => None
      end
  | atomic_set a_deleting i => fun _ =>
      if i =? 1 then
        match ph with
        | L_Init _ _ => Some (L_Del1 FromInit)
        | L_Failed => Some (L_Del1 FromFailed)
        | L_Live => Some (L_Del1 FromLive)
        | _ => None
        end
      else None
  | atomic_dec_if_positive a_refs_cnt => fun _ =>
      match ph with L_Del1 o => Some (L_Del2 o) | _ => None end
  | wait_event_zero a_refs_cnt => fun _ =>
      match ph with L_Del2 o => Some (L_D0 o) | _ => None end
  | del_gendisk g => fun _ =>
      match ph with
      | L_D1 o g' => if ptr_eqb g g' then Some (L_D2 o) else None
      | _ => None
      end
  | put_disk _ | bdev_release _ => fun _ =>
      match ph with L_D2 _ => Some ph | _ => None end
  | _ => fun _ => None
  end.

Definition life_ok : life_phase -> prog unit -> Prop :=
  conforms life_phase life_next (fun _ => True) True.

(** The baseline reference is held from [atomic_set(&refs_cnt, 1)] to
    [atomic_dec_if_positive]. *)
Definition base (ph : life_phase) : Z :=
  match ph with
  | L_Based | L_Failed | L_Live => 1
  | L_Del1 FromInit => 0
  | L_Del1 _ => 1
  | _ => 0
  end.

Definition is_deleting (ph : life_phase) : bool :=
  match ph with
  | L_Init _ _ | L_Based | L_Failed | L_Live => false
  | _ => true
  end.

Definition origin_of (ph : life_phase) : option origin :=
  match ph with
  | L_Del1 o | L_Del2 o | L_D0 o | L_D1 o _ | L_D2 o => Some o
  | _ => None
  end.

(** Phases in which the disk has never been in the routing table. *)
Definition is_quiet (ph : life_phase) : bool :=
  match ph with
  | L_Init _ _ | L_Based | L_Failed => true
  | L_Live => false
  | _ => match origin_of ph with Some FromLive => false | _ => true end
  end.

Definition is_drained (ph : life_phase) : bool :=
  match ph with
  | L_D0 _ | L_D1 _ _ | L_D2 _ => true
  | _ => false
  end.

Definition is_removed (ph : life_phase) : bool :=
  match ph with L_D2 _ => true | _ => false end.

Definition holds_sub (ph : sub_phase) : Z :=
  match ph with S_Ref _ => 1 | _ => 0 end.
Definition holds_endio (ph : endio_phase) : Z :=
  match ph with E_Owes _ | E_Ref => 1 | E_Done => 0 end.
Definition owned_sub (ph : sub_phase) : list nat :=
  match ph with
  | S_Fresh a => [a]
  | S_Own b | S_Checked b | S_Ref b => [b]
  | S_Done => []
  end.
Definition owned_endio (ph : endio_phase) : list nat :=
  match ph with E_Owes b => [b] | _ => [] end.

Definition sumZ (l : list Z) : Z := fold_right Z.add 0 l.

(** References held besides the baseline. *)
Definition held (sphs : list sub_phase) (ephs : list endio_phase) (w : world) : Z :=
  sumZ (map holds_sub sphs) + Z.of_nat (length (backing w)) + sumZ (map holds_endio ephs).

(** Requests that still await their completion signal from the driver. *)
Definition pending (ephs : list endio_phase) (w : world) : list nat :=
  map orig_id (backing w) ++ flat_map owned_endio ephs.

Definition all_ids (sphs : list sub_phase) (ephs : list endio_phase) (w : world) : list nat :=
  completed (trace w) ++ flat_map owned_sub sphs ++ pending ephs w.

Definition backing_ok (c : bio) : Prop :=
  bi_end_io c = Some end_io_sbdd /\ exists o, bi_private c = Some o.

Record inv (s : system) (lph : life_phase)
           (sphs : list sub_phase) (ephs : list endio_phase) : Prop := {
  inv_life : life_ok lph (life s);
  inv_subs : Forall2 sub_ok sphs (submitters s);
  inv_endios : Forall2 endio_ok ephs (completers s);
  inv_backing : Forall backing_ok (backing (mem s));
  inv_refs : refs_cnt (dev (mem s)) = base lph + held sphs ephs (mem s);
  inv_deleting : deleting (dev (mem s)) = if is_deleting lph then 1 else 0;
  inv_quiet : is_quiet lph = true ->
              sphs = [] /\ ephs = [] /\ backing (mem s) = [] /\ registered (mem s) = false;
  inv_handle : is_quiet lph = false -> valid_ptr (bd_handle (dev (mem s))) = true;
  inv_gd : registered (mem s) = true \/ lph = L_Based -> non_null (gd (dev (mem s))) = true;
  inv_init_h : forall g, lph = L_Init true g -> valid_ptr (bd_handle (dev (mem s))) = true;
  inv_init_g : forall h, lph = L_Init h true -> non_null (gd (dev (mem s))) = true;
  inv_based : lph = L_Based -> valid_ptr (bd_handle (dev (mem s))) = true;
  inv_drained : is_drained lph = true ->
                refs_cnt (dev (mem s)) = 0 /\
                In (Ev (wait_event_zero a_refs_cnt) tt) (trace (mem s));
  inv_d1 : forall o g, lph = L_D1 o g -> gd (dev (mem s)) = g;
  inv_removed : is_removed lph = true ->
                registered (mem s) = false /\
                (non_null (gd (dev (mem s))) = true ->
                 In (Ev (del_gendisk (gd (dev (mem s)))) tt) (trace (mem s)));
  inv_release : forall ev, In ev (trace (mem s)) ->
                is_disk_release ev || is_handle_release ev = true ->
                is_drained lph = true;
  inv_unique : forall i, (occ i (all_ids sphs ephs (mem s)) <= 1)%nat;
  inv_fresh : forall i, (next_id (mem s) <= i)%nat ->
              occ i (all_ids sphs ephs (mem s)) = O;
  inv_admitted : forall b, In b (submitted (trace (mem s))) ->
                 (1 <= occ b (completed (trace (mem s))) + occ b (pending ephs (mem s)))%nat;
  inv_count_dec : count is_dec (trace (mem s)) + Z.of_nat (length (backing (mem s)))
                  + sumZ (map holds_endio ephs)
                  = count is_submit (trace (mem s));
  inv_count_inc : count is_submit (trace (mem s)) + sumZ (map holds_sub sphs)
                  = count is_inc_ok (trace (mem s))
}.

Definition invariant (s : system) : Prop :=
  exists lph sphs ephs, inv s lph sphs ephs.

(** ** One submitter among the others

    The steps of one [sbdd_submit_bio] interleaved with steps of the rest of
    the system, of which only [rely] is known: the flag, once set, stays
    set. *)
Definition rely (w w' : world) : Prop :=
  deleting (dev w) <> 0 -> deleting (dev w') <> 0.

Inductive sub_run : prog unit -> world -> list event -> prog unit -> world -> Prop :=
| sub_run_here t w : sub_run t w [] t w
| sub_run_own t w evs t1 w1 e t2 w2 ev :
    sub_run t w evs t1 w1 ->
    tstep e t1 w1 = Some (t2, w2) ->
    trace w2 = ev :: trace w1 ->
    sub_run t w (ev :: evs) t2 w2
| sub_run_other t w evs t1 w1 w2 :
    sub_run t w evs t1 w1 ->
    rely w1 w2 ->
    sub_run t w evs t1 w2.

(** The protocol of a submitter that never reads [deleting] as zero.
    [Lt_Bad] stands for everything after such a read. *)
Inductive late_phase :=
| Lt_Fresh
| Lt_Own (x b : bio)         (* split x gave b *)
| Lt_Ended (x : bio)         (* split x gave NULL *)
| Lt_Failed (x b y : bio)    (* split x gave b, y was ended with an I/O error *)
| Lt_Bad.

Definition late_next (ph : late_phase) (R : Type) (c : call R) : R -> option late_phase :=
  match ph with
  | Lt_Bad => fun _ => Some Lt_Bad
  | _ =>
      match c in call T return T -> option late_phase with
      | bio_split_to_limits x => fun r =>
          match ph with
          | Lt_Fresh => Some (match r with Some b => Lt_Own x b | None => Lt_Ended x end)
          | _ => None
          end
      | load _ | bio_alloc_clone _ _ => fun _ =>
          match ph with Lt_Own _ _ => Some ph | _ => None end
      | atomic_read a_deleting => fun v =>
          match ph with
          | Lt_Own _ _ => Some (if v =? 0 then Lt_Bad else ph)
          | _ => None
          end
      | bio_io_error y => fun _ =>
          match ph with Lt_Own x b => Some (Lt_Failed x b y) | _ => None end
      | _ => fun _ => None
      end
  end.

Definition late_final (bio0 : bio) (ph : late_phase) : Prop :=
  match ph with
  | Lt_Ended x => x = bio0
  | Lt_Failed x b y => x = bio0 /\ y = b
  | Lt_Bad => True
  | _ => False
  end.

Definition late_ok (bio0 : bio) : late_phase -> prog unit -> Prop :=
  conforms late_phase late_next (late_final bio0) True.

(** What the thread has done so far, by phase. *)
Definition late_seen (ph : late_phase) (evs : list event) : Prop :=
  match ph with
  | Lt_Fresh => evs = []
  | Lt_Own x b => In (Ev (bio_split_to_limits x) (Some b)) evs
  | Lt_Ended x => evs = [Ev (bio_split_to_limits x) None]
  | Lt_Failed x b y =>
      hd_error evs = Some (Ev (bio_io_error y) tt) /\
      In (Ev (bio_split_to_limits x) (Some b)) evs
  | Lt_Bad => False
  end.

(** The successful increments a submitter has made so far, by phase. *)
Definition admit_seen (ph : sub_phase) (evs : list event) : Prop :=
  match ph with
  | S_Ref _ => count is_inc_ok evs = 1
  | S_Done => True
  | _ => count is_inc_ok evs = 0
  end.

Definition not_ret (t : prog unit) : Prop :=
  match t with Ret _ => False | _ => True end.

(** ** Scenarios *)

Definition ENOENT : positive := 2.
Definition ENOMEM : positive := 12.

(** A backing device of 2048 sectors that opens, a disk that is allocated
    and added. *)
Definition env_healthy : env :=
  {| env_open := Ptr 4096; env_sectors := 2048;
     env_disk := Ptr 8192; env_add_disk := 0;
     env_split := SplitWhole; env_clone := true |}.

(** The backing device cannot be opened. *)
Definition env_open_fails : env :=
  {| env_open := ERR_PTR ENOENT; env_sectors := 2048;
     env_disk := Ptr 8192; env_add_disk := 0;
     env_split := SplitWhole; env_clone := true |}.

(** The disk cannot be allocated. *)
Definition env_alloc_fails : env :=
  {| env_open := Ptr 4096; env_sectors := 2048;
     env_disk := ERR_PTR ENOMEM; env_add_disk := 0;
     env_split := SplitWhole; env_clone := true |}.

(** The host refuses the disk. *)
Definition env_add_fails : env :=
  {| env_open := Ptr 4096; env_sectors := 2048;
     env_disk := Ptr 8192; env_add_disk := Z.neg ENOMEM;
     env_split := SplitWhole; env_clone := true |}.

(** No memory for a clone. *)
Definition env_no_clone : env :=
  {| env_open := Ptr 4096; env_sectors := 2048;
     env_disk := Ptr 8192; env_add_disk := 0;
     env_split := SplitWhole; env_clone := false |}.

(** The block layer ends the request while splitting it. *)
Definition env_split_ended : env :=
  {| env_open := Ptr 4096; env_sectors := 2048;
     env_disk := Ptr 8192; env_add_disk := 0;
     env_split := SplitEnded; env_clone := true |}.

(** The state of a live device: created by [env_healthy], nothing in flight. *)
Definition world_live : world :=
  match run env_healthy sbdd_create world0 with
  | Done _ w => w
  | _ => world0
  end.

(** The same device once [sbdd_delete] has set [deleting]. *)
Definition world_deleting : world :=
  with_dev world_live (set_avar a_deleting 1 (dev world_live)).

(** A submitter's event that neither takes a reference nor hands a clone to
    the backing device. *)
Definition calm (ev : event) : Prop := is_submit ev = false /\ is_inc_ok ev = false.

(** ** Schedules

    An executable scheduler for the interleaving semantics: each move lets
    the lifecycle thread, the first submitter or the first completer take a
    step, lets a request arrive or lets the backing device complete its
    oldest clone. *)
Inductive move :=
| MLife (e : env)
| MArrive
| MSubmit (e : env)
| MBacking (st : Z)
| MEndio (e : env).

Definition actor_of (m : move) : actor :=
  match m with
  | MLife _ => Lifecycle
  | MArrive => Arrival
  | MSubmit _ => Submitter
  | MBacking _ => Backing
  | MEndio _ => Completer
  end.

Definition do_move (m : move) (s : system) : option system :=
  match m with
  | MLife e =>
      match tstep e (life s) (mem s) with
      | Some (t', w') =>
          Some {| mem := w'; life := t'; submitters := submitters s;
                  completers := completers s |}
      | None => None
      end
  | MArrive =>
      if registered (mem s)
      then Some {| mem := log (EvArrive (fresh_bio (next_id (mem s)))) (bump_id (mem s));
                   life := life s;
                   submitters :=
                     submitters s ++ [sbdd_submit_bio (fresh_bio (next_id (mem s)))];
                   completers := completers s |}
      else None
  | MSubmit e =>
      match submitters s with
      | t :: l2 =>
          match tstep e t (mem s) with
          | Some (t', w') =>
              Some {| mem := w'; life := life s; submitters := put_back [] t' l2;
                      completers := completers s |}
          | None => None
          end
      | [] => None
      end
  | MBacking st =>
      match backing (mem s) with
      | c :: l2 =>
          Some {| mem := log (EvComplete (set_bi_status c st))
                             (with_backing (mem s) ([] ++ l2));
                  life := life s; submitters := submitters s;
                  completers := completers s ++ spawn_end_io (set_bi_status c st) |}
      | [] => None
      end
  | MEndio e =>
      match completers s with
      | t :: l2 =>
          match tstep e t (mem s) with
          | Some (t', w') =>
              Some {| mem := w'; life := life s; submitters := submitters s;
                      completers := put_back [] t' l2 |}
          | None => None
          end
      | [] => None
      end
  end.

Fixpoint play (ms : list move) (s : system) : option system :=
  match ms with
  | [] => Some s
  | m :: ms' =>
      match do_move m s with
      | Some s' => if in_driver s' <? INT_MAX then play ms' s' else None
      | None => None
      end
  end.

Definition after (ms : list move) : system :=
  match play ms system0 with Some s => s | None => system0 end.

(** The device is created, a request arrives and is admitted, and the
    backing device completes it with success. *)
Definition schedule_create : list move := repeat (MLife env_healthy) 16.
Definition schedule_submit : list move :=
  schedule_create ++ MArrive :: repeat (MSubmit env_healthy) 6.
Definition schedule_complete : list move :=
  schedule_submit ++ MBacking BLK_STS_OK :: repeat (MEndio env_healthy) 3.

(** After that the module is unloaded: [sbdd_delete] has passed its wait and
    read [__sbdd.gd], its next call is [del_gendisk]. *)
Definition schedule_drained : list move :=
  schedule_complete ++ repeat (MLife env_healthy) 4.

(** The disk is removed and put and [__sbdd.bd_handle] read: the next call
    is [bdev_release]. *)
Definition schedule_disk_removed : list move :=
  schedule_drained ++ repeat (MLife env_healthy) 3.

(** The request the driver goes on with after [bio_split_to_limits]. *)
Definition split_bio (e : env) (w : world) (b : bio) : option bio :=
  match env_split e with
  | SplitEnded => None
  | SplitWhole => Some b
  | SplitFront => Some (fresh_bio (next_id w))
  end.

(** ** Progress and release counts *)

(** A program that never reaches [Oops] as long as every answer it gets
    satisfies [ok]. *)
Fixpoint guarded {A : Type} (ok : forall R : Type, call R -> R -> Prop) (p : prog A) : Prop :=
  match p with
  | Ret _ => True
  | Oops => False
  | Call c k => forall r, ok _ c r -> guarded ok (k r)
  end.

(** [__sbdd.bd_handle] is read as a handle that may be dereferenced. *)
Definition handle_ok (R : Type) (c : call R) : R -> Prop :=
  match c in call T return T -> Prop with
  | load f_bd_handle => fun r => valid_ptr r = true
  | _ => fun _ => True
  end.

Definition is_del_gendisk (ev : event) : bool :=
  match ev with
  | Ev c _ | EvOops c => match c with del_gendisk _ => true | _ => false end
  | _ => false
  end.

Definition is_put_disk (ev : event) : bool :=
  match ev with
  | Ev c _ | EvOops c => match c with put_disk _ => true | _ => false end
  | _ => false
  end.

(** A program that makes at most [n] of the calls selected by [f], whatever
    answers it gets; a call that oopses is the thread's last. *)
Fixpoint at_most {A : Type} (f : event -> bool) (n : nat) (p : prog A) : Prop :=
  match p with
  | Call c k =>
      (f (EvOops c) = true -> n <> O) /\
      forall r, if f (Ev c r)
                then match n with O => False | S n' => at_most f n' (k r) end
                else at_most f n (k r)
  | _ => True
  end.

(** The module is unloaded while the admitted request is still at the
    backing device: [sbdd_delete] reaches its wait. *)
Definition schedule_exit_waits : list move :=
  schedule_submit ++ repeat (MLife env_healthy) 2.

(** The module is unloaded right after creation, up to the wait. *)
Definition schedule_exit_idle : list move :=
  schedule_create ++ repeat (MLife env_healthy) 2.

(** The request is completed, then the module is unloaded. *)
Definition schedule_unload : list move :=
  schedule_complete ++ repeat (MLife env_healthy) 8.

(** * Properties *)

Lemma valid_not_err p : valid_ptr p = true -> IS_ERR p = false.
Proof. destruct p; simpl; congruence. Qed.

Lemma valid_non_null p : valid_ptr p = true -> non_null p = true.
Proof. destruct p; simpl; congruence. Qed.

Lemma ptr_eqb_eq p q : ptr_eqb p q = true -> p = q.
Proof.
  destruct p, q; simpl; intros H; try discriminate; try reflexivity;
    apply Pos.eqb_eq in H; now subst.
Qed.

Lemma run_bind {A B : Type} (e : env) (p : prog A) (f : A -> prog B) :
  forall w,
    run e (bind p f) w =
    match run e p w with
    | Done a w' => run e (f a) w'
    | Crashed w' => Crashed w'
    | Blocked w' => Blocked w'
    end.
Proof.
  induction p as [a | | R c k IH]; intros w; simpl; try reflexivity.
  destruct (exec e c w) as [r w' | | w']; [apply IH | reflexivity | reflexivity].
Qed.

Lemma wrap_int_small z : -2147483648 <= z <= 2147483647 -> wrap_int z = z.
Proof.
  intros H. unfold wrap_int.
  rewrite Z.mod_small by lia. lia.
Qed.


(** ** The functions one at a time *)

(** A request that gets past the [deleting] check and finds the counter
    non-zero is handed to the backing device with one more reference. *)
Lemma sbdd_submit_bio_admits (e : env) (w : world) (bio0 b : bio) (h : positive) :
  split_bio e w bio0 = Some b ->
  bd_handle (dev w) = Ptr h ->
  env_clone e = true ->
  deleting (dev w) = 0 ->
  refs_cnt (dev w) <> 0 ->
  exists w' c,
    run e (sbdd_submit_bio bio0) w = Done tt w' /\
    backing w' = backing w ++ [c] /\
    bi_private c = Some b /\ bi_end_io c = Some end_io_sbdd /\
    refs_cnt (dev w') = wrap_int (refs_cnt (dev w) + 1) /\
    deleting (dev w') = 0.
Proof.
  destruct e as [eo es ed ea esp ec]; unfold split_bio.
  destruct w as [[d r cp g0 h0] dk reg bk cl nid tr]; simpl.
  intros Hs -> -> -> Hr.
  unfold sbdd_submit_bio, exec; simpl.
  destruct esp; try discriminate; injection Hs as <-;
    (destruct r; [congruence | |]); simpl;
    do 2 eexists; (split; [reflexivity |]); simpl; repeat split.
Qed.

(** C3 (the code departs from it).  Deleting a device that was never created
    releases nothing; but when [bdev_open_by_path] fails, [sbdd_create]
    returns with the error pointer left in [__sbdd.bd_handle], which is not
    [NULL], and the deletion run by [sbdd_init] calls [bdev_release] on it.
    [bdev_release] reads through the pointer: [sbdd_init] oopses there. *)
Theorem sbdd_init_open_failure_releases_error_pointer :
  (exists w0,
     run env_open_fails sbdd_delete world0 = Done tt w0 /\
     filter is_disk_release (trace w0) = [] /\
     filter is_handle_release (trace w0) = []) /\
  (exists w1,
     run env_open_fails sbdd_create world0 = Done (-1) w1 /\
     bd_handle (dev w1) = ERR_PTR ENOENT /\ gd (dev w1) = NULL) /\
  (exists w',
     run env_open_fails sbdd_init world0 = Crashed w' /\
     bd_handle (dev w') = ERR_PTR ENOENT /\
     hd_error (trace w') = Some (EvOops (bdev_release (ERR_PTR ENOENT))) /\
     filter is_disk_release (trace w') = [] /\
     refs_cnt (dev w') = 0 /\ backing w' = [] /\ registered w' = false).
Proof.
  split; [| split]; eexists; (split; [vm_compute; reflexivity |]); repeat split.
Qed.

(** C4, amended.  The completion handler ends the original request through
    [bio_io_error], that is with [BLK_STS_IOERR], when the clone's status is
    not zero, whatever failure it encodes; and otherwise through [bio_endio],
    that is with the status the original request itself carries. *)
Theorem sbdd_bio_endio_completes_original (e : env) (w : world) (c orig : bio) :
  bi_private c = Some orig ->
  exists w',
    run e (sbdd_bio_endio c) w = Done tt w' /\
    completions (trace w') =
      (bi_id orig, if bi_status c =? BLK_STS_OK then bi_status orig else BLK_STS_IOERR)
      :: completions (trace w) /\
    (bi_status c <> BLK_STS_OK -> In (Ev (bio_io_error orig) tt) (trace w')) /\
    (bi_status c = BLK_STS_OK -> In (Ev (bio_endio orig) tt) (trace w')).
Proof.
  destruct c as [ci cs ce cp]; simpl. intros ->.
  unfold sbdd_bio_endio, completions; simpl.
  destruct (cs =? BLK_STS_OK) eqn:E; simpl; unfold exec; simpl;
    destruct (wrap_int (refs_cnt (dev w) - 1) =? 0); simpl;
    eexists; (split; [reflexivity |]); simpl;
    (split; [reflexivity |]); split; intros H; auto;
    try (apply Z.eqb_eq in E; contradiction);
    try (apply Z.eqb_neq in E; contradiction).
Qed.

Lemma sbdd_bio_endio_completes_original_witness :
  exists w',
    run env_healthy
        (sbdd_bio_endio (Bio 1 BLK_STS_NOSPC (Some end_io_sbdd) (Some (fresh_bio 0))))
        world_live = Done tt w' /\
    completions (trace w') =
      (bi_id (fresh_bio 0),
       if BLK_STS_NOSPC =? BLK_STS_OK then bi_status (fresh_bio 0) else BLK_STS_IOERR)
      :: completions (trace world_live) /\
    (BLK_STS_NOSPC <> BLK_STS_OK -> In (Ev (bio_io_error (fresh_bio 0)) tt) (trace w')) /\
    (BLK_STS_NOSPC = BLK_STS_OK -> In (Ev (bio_endio (fresh_bio 0)) tt) (trace w')).
Proof.
  apply (sbdd_bio_endio_completes_original env_healthy world_live
           (Bio 1 BLK_STS_NOSPC (Some end_io_sbdd) (Some (fresh_bio 0))) (fresh_bio 0)).
  reflexivity.
Defined.

(** C4 as stated fails.  The status is not passed through unmodified: a
    clone that failed with [BLK_STS_NOSPC] ends its request with
    [BLK_STS_IOERR].  And a clone that succeeded does not always end its
    request with success: a request that already carries a failure is ended
    with that failure. *)
Lemma clone_status_is_not_passed_through :
  (exists w',
     run env_healthy
         (sbdd_bio_endio (Bio 1 BLK_STS_NOSPC (Some end_io_sbdd) (Some (fresh_bio 0))))
         world_live = Done tt w' /\
     completions (trace w') = [(0%nat, BLK_STS_IOERR)] /\
     BLK_STS_IOERR <> BLK_STS_NOSPC) /\
  (exists w',
     run env_healthy
         (sbdd_bio_endio (Bio 1 BLK_STS_OK (Some end_io_sbdd)
                            (Some (Bio 0 BLK_STS_IOERR None None))))
         world_live = Done tt w' /\
     completions (trace w') = [(0%nat, BLK_STS_IOERR)] /\
     BLK_STS_IOERR <> BLK_STS_OK).
Proof.
  split; eexists; (split; [vm_compute; reflexivity |]);
    (split; [reflexivity | discriminate]).
Qed.

(** C6.  When the backing device opens and the disk is allocated and added,
    [add_disk] is called in a state where the capacity is the backing
    device's sector count, [deleting] is 0 and [refs_cnt] is 1, and creation
    returns 0 with the disk registered. *)
Theorem sbdd_create_initial_state (e : env) (h g : positive) :
  env_open e = Ptr h -> env_disk e = Ptr g -> env_add_disk e = 0 ->
  exists k w1 w',
    steps 15 e sbdd_create world0 = (Call (add_disk (Ptr g)) k, w1) /\
    capacity (dev w1) = env_sectors e /\
    gd_capacity (disk w1) = env_sectors e /\
    deleting (dev w1) = 0 /\
    refs_cnt (dev w1) = 1 /\
    registered w1 = false /\
    run e sbdd_create world0 = Done 0 w' /\
    dev w' = dev w1 /\ disk w' = disk w1 /\ registered w' = true.
Proof.
  destruct e as [eo es ed ea esp ec]; simpl. intros -> -> ->.
  do 3 eexists.
  split; [vm_compute; reflexivity |].
  do 5 (split; [vm_compute; reflexivity |]).
  split; [vm_compute; reflexivity |].
  repeat split.
Qed.

Lemma sbdd_create_initial_state_witness :
  exists k w1 w',
    steps 15 env_healthy sbdd_create world0 = (Call (add_disk (Ptr 8192)) k, w1) /\
    capacity (dev w1) = 2048 /\
    gd_capacity (disk w1) = 2048 /\
    deleting (dev w1) = 0 /\
    refs_cnt (dev w1) = 1 /\
    registered w1 = false /\
    run env_healthy sbdd_create world0 = Done 0 w' /\
    dev w' = dev w1 /\ disk w' = disk w1 /\ registered w' = true.
Proof.
  apply (sbdd_create_initial_state env_healthy 4096 8192); reflexivity.
Defined.

(** C7.  When [bio_alloc_clone] fails the request is ended with an I/O error
    and nothing else happens: the counter, the flag, the backing queue and
    the disk are as before, and a later request is still admitted. *)
Theorem clone_allocation_failure_no_side_effects
    (e : env) (w : world) (bio0 b : bio) (h : positive) :
  split_bio e w bio0 = Some b ->
  bd_handle (dev w) = Ptr h ->
  env_clone e = false ->
  exists w',
    run e (sbdd_submit_bio bio0) w = Done tt w' /\
    trace w' = Ev (bio_io_error b) tt
               :: Ev (bio_alloc_clone (Ptr h) b) None
               :: Ev (load f_bd_handle) (Ptr h)
               :: Ev (bio_split_to_limits bio0) (Some b) :: trace w /\
    dev w' = dev w /\ backing w' = backing w /\ clones w' = clones w /\
    registered w' = registered w /\ disk w' = disk w /\
    (forall e2 bio2 b2,
        split_bio e2 w' bio2 = Some b2 -> env_clone e2 = true ->
        deleting (dev w) = 0 -> refs_cnt (dev w) <> 0 ->
        exists w2 c,
          run e2 (sbdd_submit_bio bio2) w' = Done tt w2 /\
          backing w2 = backing w ++ [c] /\ bi_private c = Some b2).
Proof.
  intros Hs Hh Hc.
  assert (exists w',
    run e (sbdd_submit_bio bio0) w = Done tt w' /\
    trace w' = Ev (bio_io_error b) tt
               :: Ev (bio_alloc_clone (Ptr h) b) None
               :: Ev (load f_bd_handle) (Ptr h)
               :: Ev (bio_split_to_limits bio0) (Some b) :: trace w /\
    dev w' = dev w /\ backing w' = backing w /\ clones w' = clones w /\
    registered w' = registered w /\ disk w' = disk w) as (w' & Hrun & Htr & Hdev & Hb & Hrest).
  { destruct e as [eo es ed ea esp ec]; unfold split_bio in Hs; simpl in *. subst ec.
    unfold sbdd_submit_bio, exec; simpl.
    destruct esp; try discriminate; injection Hs as <-; simpl; rewrite Hh; simpl;
      eexists; (split; [reflexivity |]); simpl; rewrite ?Hh; repeat split. }
  exists w'. repeat (split; [tauto |]).
  intros e2 bio2 b2 Hs2 Hc2 Hd Hr.
  destruct (sbdd_submit_bio_admits e2 w' bio2 b2 h Hs2) as (w2 & c & H1 & H2 & H3 & _);
    rewrite ?Hdev; auto.
  exists w2, c. rewrite <- Hb. auto.
Qed.

Lemma clone_allocation_failure_no_side_effects_witness :
  exists w',
    run env_no_clone (sbdd_submit_bio (fresh_bio 7)) world_live = Done tt w' /\
    trace w' = Ev (bio_io_error (fresh_bio 7)) tt
               :: Ev (bio_alloc_clone (Ptr 4096) (fresh_bio 7)) None
               :: Ev (load f_bd_handle) (Ptr 4096)
               :: Ev (bio_split_to_limits (fresh_bio 7)) (Some (fresh_bio 7))
               :: trace world_live /\
    dev w' = dev world_live /\ backing w' = backing world_live /\
    clones w' = clones world_live /\
    registered w' = registered world_live /\ disk w' = disk world_live /\
    (forall e2 bio2 b2,
        split_bio e2 w' bio2 = Some b2 -> env_clone e2 = true ->
        deleting (dev world_live) = 0 -> refs_cnt (dev world_live) <> 0 ->
        exists w2 c,
          run e2 (sbdd_submit_bio bio2) w' = Done tt w2 /\
          backing w2 = backing world_live ++ [c] /\ bi_private c = Some b2).
Proof.
  apply (clone_allocation_failure_no_side_effects env_no_clone world_live
           (fresh_bio 7) (fresh_bio 7) 4096); reflexivity.
Defined.

(** C8 (the code departs from it).  [sbdd_init] runs [sbdd_create] and, when
    that returns a non-zero status, [sbdd_delete] before it returns the
    status.  After a failed disk allocation it returns the errno, and after
    a refused [add_disk] the status of [add_disk], the deletion having
    removed and put the disk and released the handle.  After a failed open
    it does not return: [sbdd_create] returns -1 with the error pointer left
    in [__sbdd.bd_handle], and the deletion oopses in [bdev_release]. *)
Theorem sbdd_init_after_creation_failure (e : env) :
  (forall w,
      run e sbdd_init w =
      match run e sbdd_create w with
      | Done ret w1 =>
          if ret =? 0 then Done ret w1
          else match run e sbdd_delete w1 with
               | Done _ w2 => Done ret w2
               | Crashed w2 => Crashed w2
               | Blocked w2 => Blocked w2
               end
      | Crashed w1 => Crashed w1
      | Blocked w1 => Blocked w1
      end) /\
  (forall err, env_open e = ERR_PTR err ->
      exists w1 w',
        run e sbdd_create world0 = Done (-1) w1 /\
        run e sbdd_init world0 = Crashed w' /\
        hd_error (trace w') = Some (EvOops (bdev_release (ERR_PTR err))) /\
        In (Ev (atomic_set a_deleting 1) tt) (trace w')) /\
  (forall h err, env_open e = Ptr h -> env_disk e = ERR_PTR err ->
      exists w', run e sbdd_init world0 = Done (Z.neg err) w' /\
                 hd_error (trace w') = Some (Ev (bdev_release (Ptr h)) tt) /\
                 filter is_disk_release (trace w') = []) /\
  (forall h g, env_open e = Ptr h -> env_disk e = Ptr g -> env_add_disk e <> 0 ->
      exists w' evs,
        run e sbdd_init world0 = Done (env_add_disk e) w' /\
        trace w' = Ev (bdev_release (Ptr h)) tt
                   :: Ev (load f_bd_handle) (Ptr h)
                   :: Ev (put_disk (Ptr g)) tt
                   :: Ev (del_gendisk (Ptr g)) tt
                   :: Ev (load f_gd) (Ptr g)
                   :: Ev (wait_event_zero a_refs_cnt) tt
                   :: Ev (atomic_dec_if_positive a_refs_cnt) 0
                   :: Ev (atomic_set a_deleting 1) tt
                   :: Ev (add_disk (Ptr g)) (env_add_disk e) :: evs /\
        registered w' = false /\ refs_cnt (dev w') = 0).
Proof.
  split; [| split; [| split]].
  - intros w. unfold sbdd_init, pr_info, pr_err. cbn [bind].
    rewrite run_bind. destruct (run e sbdd_create w) as [ret w1 | w1 | w1]; auto.
    rewrite run_bind. destruct (ret =? 0); cbn [negb bind].
    + reflexivity.
    + destruct (run e sbdd_delete w1); reflexivity.
  - destruct e as [eo es ed ea esp ec]; simpl. intros err ->.
    do 2 eexists. split; [vm_compute; reflexivity |].
    split; [vm_compute; reflexivity |]. split; [reflexivity |].
    vm_compute. tauto.
  - destruct e as [eo es ed ea esp ec]; simpl. intros h err -> ->.
    eexists. split; [vm_compute; reflexivity |]. split; reflexivity.
  - destruct e as [eo es ed ea esp ec]; simpl. intros h g -> -> Ha.
    destruct ea as [| a | a]; [congruence | |];
      do 2 eexists; (split; [vm_compute; reflexivity |]); repeat split.
Qed.

Lemma sbdd_init_after_creation_failure_witness :
  (exists w1 w',
     run env_open_fails sbdd_create world0 = Done (-1) w1 /\
     run env_open_fails sbdd_init world0 = Crashed w' /\
     hd_error (trace w') = Some (EvOops (bdev_release (ERR_PTR ENOENT))) /\
     In (Ev (atomic_set a_deleting 1) tt) (trace w')) /\
  env_add_disk env_add_fails <> 0 /\
  exists w' evs,
    run env_add_fails sbdd_init world0 = Done (Z.neg ENOMEM) w' /\
    trace w' = Ev (bdev_release (Ptr 4096)) tt
               :: Ev (load f_bd_handle) (Ptr 4096)
               :: Ev (put_disk (Ptr 8192)) tt
               :: Ev (del_gendisk (Ptr 8192)) tt
               :: Ev (load f_gd) (Ptr 8192)
               :: Ev (wait_event_zero a_refs_cnt) tt
               :: Ev (atomic_dec_if_positive a_refs_cnt) 0
               :: Ev (atomic_set a_deleting 1) tt
               :: Ev (add_disk (Ptr 8192)) (Z.neg ENOMEM) :: evs /\
    registered w' = false /\ refs_cnt (dev w') = 0.
Proof.
  split; [| split; [discriminate |]].
  - apply (proj1 (proj2 (sbdd_init_after_creation_failure env_open_fails)) ENOENT).
    reflexivity.
  - apply (proj2 (proj2 (proj2 (sbdd_init_after_creation_failure env_add_fails)))
             4096%positive 8192%positive); [reflexivity | reflexivity | discriminate].
Defined.

(** C10.  When the request is rejected after its clone was allocated, because
    [deleting] is set or the counter is zero, the request is ended with an
    I/O error and the clone is neither released by [bio_put] nor submitted:
    it stays allocated. *)
Theorem rejected_request_keeps_its_clone
    (e : env) (w : world) (bio0 b : bio) (h : positive) :
  split_bio e w bio0 = Some b ->
  bd_handle (dev w) = Ptr h ->
  env_clone e = true ->
  deleting (dev w) <> 0 \/ refs_cnt (dev w) = 0 ->
  exists w' c evs,
    run e (sbdd_submit_bio bio0) w = Done tt w' /\
    trace w' = Ev (bio_io_error b) tt :: evs ++ trace w /\
    In (Ev (bio_alloc_clone (Ptr h) b) (Some c)) evs /\
    filter is_put evs = [] /\
    filter is_submit evs = [] /\
    In (bi_id c) (clones w') /\
    backing w' = backing w /\
    refs_cnt (dev w') = refs_cnt (dev w).
Proof.
  destruct e as [eo es ed ea esp ec]; unfold split_bio.
  destruct w as [[d r cp g0 h0] dk reg bk cl nid tr]; simpl.
  intros Hs -> -> Hrej.
  unfold sbdd_submit_bio, exec; simpl.
  destruct esp; try discriminate; injection Hs as <-;
    destruct d; simpl.
  all: try (destruct Hrej as [Hrej | ->]; [congruence |]; simpl).
  all: do 2 eexists.
  all: try (eexists [_; _; _; _]; split; [reflexivity |]; simpl; repeat split; auto; fail).
  all: try (eexists [_; _; _]; split; [reflexivity |]; simpl; repeat split; auto; fail).
  all: eexists [_; _; _; _; _]; split; [reflexivity |]; simpl; repeat split; auto.
Qed.

Lemma rejected_request_keeps_its_clone_witness :
  exists w' c evs,
    run env_healthy (sbdd_submit_bio (fresh_bio 7)) world_deleting = Done tt w' /\
    trace w' = Ev (bio_io_error (fresh_bio 7)) tt :: evs ++ trace world_deleting /\
    In (Ev (bio_alloc_clone (Ptr 4096) (fresh_bio 7)) (Some c)) evs /\
    filter is_put evs = [] /\
    filter is_submit evs = [] /\
    In (bi_id c) (clones w') /\
    backing w' = backing world_deleting /\
    refs_cnt (dev w') = refs_cnt (dev world_deleting).
Proof.
  apply (rejected_request_keeps_its_clone env_healthy world_deleting
           (fresh_bio 7) (fresh_bio 7) 4096);
    [reflexivity | reflexivity | reflexivity | left; discriminate].
Defined.

(** ** The module under concurrency: the invariant *)

Ltac conf_step :=
  match goal with
  | |- True => exact I
  | |- _ = _ => reflexivity
  | |- context [non_null ?x] => is_var x; destruct x
  | |- context [IS_ERR ?x] => is_var x; destruct x
  | |- context [valid_ptr ?x] => is_var x; destruct x
  | |- context [?x =? 0] => is_var x; destruct x
  | |- context [if ?b then _ else _] => is_var b; destruct b
  | |- context [negb ?b] => is_var b; destruct b
  | |- context [match ?b with Some _ => _ | None => _ end] => is_var b; destruct b
  | |- forall _ : unit, _ => intros []
  | |- forall _, _ => intro
  end; cbn; rewrite ?Pos.eqb_refl, ?Nat.eqb_refl; cbn.

Lemma module_life_conforms : life_ok (L_Init false false) module_life.
Proof.
  unfold life_ok, module_life, sbdd_init, sbdd_exit, sbdd_create, sbdd_delete,
    pr_info, pr_err, deref.
  cbn. repeat conf_step.
Qed.

Lemma sbdd_submit_bio_conforms b : sub_ok (S_Fresh (bi_id b)) (sbdd_submit_bio b).
Proof.
  unfold sub_ok, sbdd_submit_bio, deref. cbn. rewrite Nat.eqb_refl.
  repeat (conf_step; rewrite ?Nat.eqb_refl).
Qed.

Lemma sbdd_bio_endio_conforms c o :
  bi_private c = Some o -> endio_ok (E_Owes (bi_id o)) (sbdd_bio_endio c).
Proof.
  intros H. unfold endio_ok, sbdd_bio_endio, deref_bio. rewrite H. cbn.
  destruct (bi_status c =? BLK_STS_OK); cbn; rewrite Nat.eqb_refl;
  repeat conf_step.
Qed.

#[local] Arguments Z.add _ _ : simpl never.
#[local] Arguments Z.sub _ _ : simpl never.
#[local] Arguments Z.of_nat _ : simpl never.
#[local] Arguments wrap_int _ : simpl never.

Lemma sumZ_app l1 l2 : sumZ (l1 ++ l2) = sumZ l1 + sumZ l2.
Proof. unfold sumZ. induction l1 as [| x l1 IH]; simpl; lia. Qed.

Lemma count_cons f ev tr : count f (ev :: tr) = (if f ev then 1 else 0) + count f tr.
Proof. unfold count. simpl. destruct (f ev); simpl; lia. Qed.

Lemma holds_sub_bound l : 0 <= sumZ (map holds_sub l) <= Z.of_nat (length l).
Proof.
  unfold sumZ. induction l as [| ph l IH]; simpl; [lia |].
  destruct ph; simpl; lia.
Qed.

Lemma holds_endio_bound l : 0 <= sumZ (map holds_endio l) <= Z.of_nat (length l).
Proof.
  unfold sumZ. induction l as [| ph l IH]; simpl; [lia |].
  destruct ph; simpl; lia.
Qed.

Lemma Forall2_length {A B} (P : A -> B -> Prop) l1 l2 :
  Forall2 P l1 l2 -> length l1 = length l2.
Proof. induction 1; simpl; congruence. Qed.


Lemma put_back_sub p1 ph' p2 l1 t' l2 :
  Forall2 sub_ok p1 l1 -> Forall2 sub_ok p2 l2 -> sub_ok ph' t' ->
  exists sphs',
    Forall2 sub_ok sphs' (put_back l1 t' l2) /\
    sumZ (map holds_sub sphs') =
      sumZ (map holds_sub p1) + holds_sub ph' + sumZ (map holds_sub p2) /\
    flat_map owned_sub sphs' =
      flat_map owned_sub p1 ++ owned_sub ph' ++ flat_map owned_sub p2.
Proof.
  intros H1 H2 H.
  destruct t' as [[] | | R c k].
  - unfold sub_ok in H. simpl in H. subst ph'. exists (p1 ++ p2). simpl.
    split; [now apply Forall2_app |].
    rewrite map_app, sumZ_app, flat_map_app. split; [lia | reflexivity].
  - exists (p1 ++ ph' :: p2). simpl.
    split; [apply Forall2_app; auto |].
    rewrite map_app, sumZ_app, flat_map_app. simpl. split; [lia | reflexivity].
  - exists (p1 ++ ph' :: p2). simpl.
    split; [apply Forall2_app; auto |].
    rewrite map_app, sumZ_app, flat_map_app. simpl. split; [lia | reflexivity].
Qed.

Lemma put_back_length l1 t' l2 :
  (length (put_back l1 t' l2) <= length (l1 ++ t' :: l2))%nat.
Proof. destruct t'; simpl; rewrite !length_app; simpl; lia. Qed.


Lemma sumZ_cons x l : sumZ (x :: l) = x + sumZ l.
Proof. reflexivity. Qed.

Lemma sumZ_nil : sumZ [] = 0.
Proof. reflexivity. Qed.

Lemma occ_app i l1 l2 : occ i (l1 ++ l2) = (occ i l1 + occ i l2)%nat.
Proof. apply count_occ_app. Qed.

Lemma occ_cons i x l : occ i (x :: l) = ((if Nat.eq_dec x i then 1 else 0) + occ i l)%nat.
Proof. unfold occ. simpl. destruct (Nat.eq_dec x i); reflexivity. Qed.

Lemma occ_nil i : occ i [] = O.
Proof. reflexivity. Qed.

Lemma held_bound s lph sphs ephs :
  inv s lph sphs ephs -> 0 <= held sphs ephs (mem s) <= in_driver s.
Proof.
  intros I. unfold held, in_driver.
  pose proof (holds_sub_bound sphs). pose proof (holds_endio_bound ephs).
  rewrite (Forall2_length _ _ _ (inv_subs _ _ _ _ I)) in H.
  rewrite (Forall2_length _ _ _ (inv_endios _ _ _ _ I)) in H0.
  lia.
Qed.

(** The invariant after a step that leaves the lifecycle thread and the
    fields it owns alone. *)
Lemma inv_thread_update s lph sphs ephs s' sphs' ephs' :
  inv s lph sphs ephs ->
  is_quiet lph = false ->
  life s' = life s ->
  Forall2 sub_ok sphs' (submitters s') ->
  Forall2 endio_ok ephs' (completers s') ->
  Forall backing_ok (backing (mem s')) ->
  deleting (dev (mem s')) = deleting (dev (mem s)) ->
  gd (dev (mem s')) = gd (dev (mem s)) ->
  bd_handle (dev (mem s')) = bd_handle (dev (mem s)) ->
  registered (mem s') = registered (mem s) ->
  refs_cnt (dev (mem s')) - held sphs' ephs' (mem s')
    = refs_cnt (dev (mem s)) - held sphs ephs (mem s) ->
  (is_drained lph = true -> refs_cnt (dev (mem s')) = 0) ->
  (exists ev, trace (mem s') = ev :: trace (mem s) /\
              is_disk_release ev || is_handle_release ev = false) ->
  (forall i, (occ i (all_ids sphs' ephs' (mem s')) <= 1)%nat) ->
  (forall i, (next_id (mem s') <= i)%nat -> occ i (all_ids sphs' ephs' (mem s')) = O) ->
  (forall b, In b (submitted (trace (mem s'))) ->
             (1 <= occ b (completed (trace (mem s'))) + occ b (pending ephs' (mem s')))%nat) ->
  count is_dec (trace (mem s')) + Z.of_nat (length (backing (mem s')))
    + sumZ (map holds_endio ephs') = count is_submit (trace (mem s')) ->
  count is_submit (trace (mem s')) + sumZ (map holds_sub sphs')
    = count is_inc_ok (trace (mem s')) ->
  inv s' lph sphs' ephs'.
Proof.
  intros I Q Hl Fs Fe Hb Hdel Hgd Hh Hreg Hrefs Hdr (ev & Htr & Hev) Hu Hf Ha Hc1 Hc2.
  pose proof (inv_refs _ _ _ _ I) as Jr.
  pose proof (inv_drained _ _ _ _ I) as Jd.
  pose proof (inv_removed _ _ _ _ I) as Jm.
  pose proof (inv_release _ _ _ _ I) as Jl.
  constructor; rewrite ?Hl, ?Hdel, ?Hgd, ?Hh, ?Hreg; auto; try apply I.
  - lia.
  - congruence.
  - intros D. rewrite Htr. split; [auto |]. right. now apply Jd.
  - intros R. destruct (Jm R) as [R1 R2]. split; [auto |].
    intros G. rewrite Htr. right. auto.
  - rewrite Htr. intros ev' [<- | Hin] Hrel; [congruence | eauto].
Qed.


Ltac norm :=
  unfold held, all_ids, pending, completed, completions, submitted in *;
  repeat match goal with
         | H : sumZ (map holds_sub ?l) = _ |- context [sumZ (map holds_sub ?l)] => rewrite H
         | H : sumZ (map holds_endio ?l) = _ |- context [sumZ (map holds_endio ?l)] => rewrite H
         | H : flat_map owned_sub ?l = _ |- context [flat_map owned_sub ?l] => rewrite H
         | H : flat_map owned_endio ?l = _ |- context [flat_map owned_endio ?l] => rewrite H
         end;
  try match goal with H : backing (mem ?s) = _ |- _ => rewrite !H in * end;
  repeat (rewrite ?map_app, ?sumZ_app, ?sumZ_cons, ?sumZ_nil, ?flat_map_app, ?occ_app,
            ?occ_cons, ?occ_nil, ?length_app, ?count_cons, ?Nat2Z.inj_add in *;
          cbn [map flat_map length pick delivered admitted fst snd
               holds_sub holds_endio owned_sub owned_endio app
               is_dec is_submit is_inc_ok is_disk_release is_handle_release orb
               mem dev trace backing next_id clones registered disk
               log with_dev with_backing with_clones bump_id with_registered with_disk
               refs_cnt deleting gd bd_handle capacity set_avar get_avar
               bi_private bi_end_io bi_id bi_status set_bi_private set_bi_end_io
               set_bi_status fresh_bio orig_id] in *).

Ltac facts I :=
  pose proof (inv_refs _ _ _ _ I) as Jr;
  pose proof (inv_unique _ _ _ _ I) as Ju;
  pose proof (inv_fresh _ _ _ _ I) as Jf;
  pose proof (inv_admitted _ _ _ _ I) as Ja;
  pose proof (inv_count_dec _ _ _ _ I) as Jc1;
  pose proof (inv_count_inc _ _ _ _ I) as Jc2;
  pose proof (inv_drained _ _ _ _ I) as Jd;
  pose proof (inv_backing _ _ _ _ I) as Jb;
  pose proof (inv_endios _ _ _ _ I) as Je;
  pose proof (inv_subs _ _ _ _ I) as Js.

Ltac eqdec :=
  repeat match goal with
         | |- context [Nat.eq_dec ?a ?b] => destruct (Nat.eq_dec a b); try subst
         | H : context [Nat.eq_dec ?a ?b] |- _ => destruct (Nat.eq_dec a b); try subst
         end.

Ltac rew_priv :=
  repeat match goal with
         | H : bi_private ?c = Some ?o |- context [orig_id ?c] =>
             replace (orig_id c) with (bi_id o) by (unfold orig_id; rewrite H; reflexivity)
         end.

Ltac fin I :=
  match goal with
  | |- Forall backing_ok (backing (mem _)) => apply (inv_backing _ _ _ _ I)
  | |- Forall2 _ _ _ => assumption
  | |- exists ev, _ :: _ = ev :: _ /\ _ => eexists; split; reflexivity
  | |- is_drained _ = true -> _ =>
      let D := fresh in intros D; destruct (inv_drained _ _ _ _ I D); lia
  | |- forall i, (_ <= 1)%nat =>
      let i := fresh "i" in intros i;
      pose proof (inv_unique _ _ _ _ I i); pose proof (inv_fresh _ _ _ _ I i);
      pose proof (inv_fresh _ _ _ _ I _ (le_n _));
      norm; eqdec; lia
  | |- forall i, (_ <= i)%nat -> _ = O =>
      let i := fresh "i" in let Hi := fresh in intros i Hi;
      pose proof (inv_fresh _ _ _ _ I i);
      norm; eqdec; lia
  | |- forall b, _ -> (1 <= _)%nat =>
      let b := fresh "b" in let Hin := fresh in intros b Hin;
      pose proof (inv_admitted _ _ _ _ I b) as Hadm; pose proof (inv_unique _ _ _ _ I b);
      norm;
      try (destruct Hin as [Hin | Hin]; [try subst |]);
      try specialize (Hadm Hin);
      eqdec; try lia
  | |- Forall backing_ok (_ ++ [_]) =>
      apply Forall_app; split; [apply (inv_backing _ _ _ _ I) |];
      constructor; [split; eauto | constructor]
  | |- _ = _ => unfold INT_MAX in *; rewrite ?wrap_int_small by lia; lia
  | |- _ => idtac
  end.


Lemma base_range lph : 0 <= base lph <= 1.
Proof. destruct lph as [| | | | [] | | | |]; simpl; lia. Qed.

Lemma drained_base lph : is_drained lph = true -> base lph = 0.
Proof. destruct lph; simpl; congruence. Qed.

Ltac split_hyp H :=
  repeat match type of H with
         | context [env_split ?e] => destruct (env_split e)
         | context [env_clone ?e] => destruct (env_clone e)
         | context [match ?f with f_gd => _ | f_bd_handle => _ end] => destruct f
         | context [if ?b then _ else _] => is_var b; destruct b
         | context [?x =? ?y] => destruct (x =? y) eqn:?
         | context [?x <? 0] => destruct (x <? 0) eqn:?
         | context [Nat.eqb ?a ?b] => destruct (Nat.eqb a b) eqn:?
         | context [ptr_eqb ?a ?b] => destruct (ptr_eqb a b) eqn:?
         | context [non_null ?a] => destruct (non_null a) eqn:?
         | context [match bi_private ?c with _ => _ end] => destruct (bi_private c) eqn:?
         | context [match bi_end_io ?c with _ => _ end] => destruct (bi_end_io c) as [[]|] eqn:?
         end; try discriminate.

Ltac to_prop :=
  repeat match goal with
         | H : Nat.eqb _ _ = true |- _ => apply Nat.eqb_eq in H
         | H : (_ =? _) = true |- _ => apply Z.eqb_eq in H
         | H : (_ =? _) = false |- _ => apply Z.eqb_neq in H
         | H : (_ <? _) = true |- _ => apply Z.ltb_lt in H
         | H : (_ <? _) = false |- _ => apply Z.ltb_ge in H
         end.

Ltac split_ptr H :=
  repeat match type of H with
         | context [if valid_ptr ?a then _ else _] => destruct (valid_ptr a) eqn:?
         | context [if IS_ERR ?a then _ else _] => destruct (IS_ERR a) eqn:?
         end; try discriminate.

(** Submitters and completion handlers make no call that can oops. *)
Lemma sub_no_oops ph R (c : call R) k e w w1 :
  sub_ok ph (Call c k) -> exec e c w = Oopses w1 -> False.
Proof.
  unfold sub_ok, exec. simpl. intros Hok E.
  destruct c; simpl in E; split_hyp E; split_ptr E;
    specialize (Hok tt); simpl in Hok; destruct ph; contradiction.
Qed.

Lemma endio_no_oops ph R (c : call R) k e w w1 :
  endio_ok ph (Call c k) -> exec e c w = Oopses w1 -> False.
Proof.
  unfold endio_ok, exec. simpl. intros Hok E.
  destruct c; simpl in E; split_hyp E; split_ptr E;
    specialize (Hok tt); simpl in Hok; destruct ph; contradiction.
Qed.

(** The lifecycle thread can oops in a release call only, after the drain. *)
Lemma life_oops lph R (c : call R) k e w w1 :
  life_ok lph (Call c k) -> exec e c w = Oopses w1 ->
  w1 = log (EvOops c) w /\
  is_disk_release (EvOops c) || is_handle_release (EvOops c) = true /\
  is_drained lph = true /\
  (is_handle_release (EvOops c) = true -> is_removed lph = true).
Proof.
  unfold life_ok, exec. simpl. intros Hok E.
  destruct c; simpl in E; split_hyp E; split_ptr E;
    injection E as <-;
    specialize (Hok tt); simpl in Hok; destruct lph; try contradiction;
    simpl; auto; repeat split; auto; discriminate.
Qed.

Lemma put_back_ge l1 (t' : prog unit) l2 :
  (length l1 + length l2 <= length (put_back l1 t' l2))%nat.
Proof. destruct t'; simpl; rewrite !length_app; simpl; lia. Qed.

Lemma step_submit_inv s lph sphs ephs e l1 t l2 t' w' :
  inv s lph sphs ephs ->
  submitters s = l1 ++ t :: l2 ->
  tstep e t (mem s) = Some (t', w') ->
  in_driver {| mem := w'; life := life s; submitters := put_back l1 t' l2;
               completers := completers s |} < INT_MAX ->
  exists sphs',
    inv {| mem := w'; life := life s; submitters := put_back l1 t' l2;
           completers := completers s |} lph sphs' ephs.
Proof.
  intros I Hs Hstep Hb.
  pose proof (inv_subs _ _ _ _ I) as F. rewrite Hs in F.
  apply Forall2_app_inv_r in F. destruct F as (p1 & p2' & F1 & F2 & ->).
  inversion F2 as [| ph t0 p2 l2' Hok F3]; subst.
  destruct t as [a | | R c k]; simpl in Hstep; try discriminate.
  destruct (exec e c (mem s)) as [r w1 | | w1] eqn:E;
    [| discriminate | destruct (sub_no_oops _ _ _ _ _ _ _ Hok E)].
  injection Hstep as <- <-.
  unfold sub_ok in Hok. simpl in Hok. specialize (Hok r).
  destruct (sub_next ph R c r) as [ph' |] eqn:N; [| contradiction].
  destruct (put_back_sub p1 ph' p2 l1 (k r) l2 F1 F3 Hok) as (sphs' & G1 & G2 & G3).
  exists sphs'.
  assert (Q : is_quiet lph = false).
  { destruct (is_quiet lph) eqn:Q; auto.
    destruct (inv_quiet _ _ _ _ I Q) as (Hn & _). destruct p1; discriminate. }
  pose proof (held_bound _ _ _ _ I) as HB.
  pose proof (base_range lph) as HR.
  pose proof (holds_sub_bound sphs') as HS.
  rewrite (Forall2_length _ _ _ G1) in HS.
  pose proof (holds_endio_bound ephs) as HE.
  rewrite (Forall2_length _ _ _ (inv_endios _ _ _ _ I)) in HE.
  unfold in_driver in Hb. cbn [submitters completers mem] in Hb.
  facts I.
  unfold exec in E.
  destruct c; simpl in N; try discriminate;
    try (destruct v; simpl in N; try discriminate);
    destruct ph; simpl in N; try discriminate;
    simpl in E; split_hyp E; inversion E; subst; clear E;
    split_hyp N; inversion N; subst; clear N.
  all: apply (inv_thread_update _ _ _ _ _ _ _ I Q); simpl; auto.
  all: to_prop; try subst; norm; rew_priv; fin I.
Qed.

Lemma put_back_endio p1 ph' p2 l1 t' l2 :
  Forall2 endio_ok p1 l1 -> Forall2 endio_ok p2 l2 -> endio_ok ph' t' ->
  exists ephs',
    Forall2 endio_ok ephs' (put_back l1 t' l2) /\
    sumZ (map holds_endio ephs') =
      sumZ (map holds_endio p1) + holds_endio ph' + sumZ (map holds_endio p2) /\
    flat_map owned_endio ephs' =
      flat_map owned_endio p1 ++ owned_endio ph' ++ flat_map owned_endio p2.
Proof.
  intros H1 H2 H.
  destruct t' as [[] | | R c k].
  - unfold endio_ok in H. simpl in H. subst ph'. exists (p1 ++ p2). simpl.
    split; [now apply Forall2_app |].
    rewrite map_app, sumZ_app, flat_map_app. split; [lia | reflexivity].
  - exists (p1 ++ ph' :: p2). simpl.
    split; [apply Forall2_app; auto |].
    rewrite map_app, sumZ_app, flat_map_app. simpl. rewrite ?sumZ_cons. split; [lia | reflexivity].
  - exists (p1 ++ ph' :: p2). simpl.
    split; [apply Forall2_app; auto |].
    rewrite map_app, sumZ_app, flat_map_app. simpl. rewrite ?sumZ_cons. split; [lia | reflexivity].
Qed.

Lemma step_endio_inv s lph sphs ephs e l1 t l2 t' w' :
  inv s lph sphs ephs ->
  completers s = l1 ++ t :: l2 ->
  tstep e t (mem s) = Some (t', w') ->
  in_driver {| mem := w'; life := life s; submitters := submitters s;
               completers := put_back l1 t' l2 |} < INT_MAX ->
  exists ephs',
    inv {| mem := w'; life := life s; submitters := submitters s;
           completers := put_back l1 t' l2 |} lph sphs ephs'.
Proof.
  intros I Hs Hstep Hb.
  pose proof (inv_endios _ _ _ _ I) as F. rewrite Hs in F.
  apply Forall2_app_inv_r in F. destruct F as (p1 & p2' & F1 & F2 & ->).
  inversion F2 as [| ph t0 p2 l2' Hok F3]; subst.
  destruct t as [a | | R c k]; simpl in Hstep; try discriminate.
  destruct (exec e c (mem s)) as [r w1 | | w1] eqn:E;
    [| discriminate | destruct (endio_no_oops _ _ _ _ _ _ _ Hok E)].
  injection Hstep as <- <-.
  unfold endio_ok in Hok. simpl in Hok. specialize (Hok r).
  destruct (endio_next ph R c r) as [ph' |] eqn:N; [| contradiction].
  destruct (put_back_endio p1 ph' p2 l1 (k r) l2 F1 F3 Hok) as (ephs' & G1 & G2 & G3).
  exists ephs'.
  assert (Q : is_quiet lph = false).
  { destruct (is_quiet lph) eqn:Q; auto.
    destruct (inv_quiet _ _ _ _ I Q) as (_ & Hn & _). destruct p1; discriminate. }
  pose proof (held_bound _ _ _ _ I) as HB.
  pose proof (base_range lph) as HR.
  pose proof (holds_sub_bound sphs) as HS.
  pose proof (put_back_ge l1 (k r) l2) as HP.
  pose proof (holds_endio_bound p1) as HE1.
  pose proof (holds_endio_bound p2) as HE2.
  unfold in_driver in HB, Hb. rewrite Hs in HB. cbn [submitters completers mem] in Hb.
  facts I.
  unfold exec in E.
  destruct c; simpl in N; try discriminate;
    try (destruct v; simpl in N; try discriminate);
    destruct ph; simpl in N; try discriminate;
    simpl in E; split_hyp E; inversion E; subst; clear E;
    split_hyp N; inversion N; subst; clear N.
  all: apply (inv_thread_update _ _ _ _ _ _ _ I Q); simpl; auto.
  all: to_prop; try subst; norm; rew_priv; fin I.
Qed.

Lemma step_arrive_inv s lph sphs ephs :
  inv s lph sphs ephs ->
  registered (mem s) = true ->
  exists sphs',
    inv {| mem := log (EvArrive (fresh_bio (next_id (mem s)))) (bump_id (mem s));
           life := life s;
           submitters := submitters s ++ [sbdd_submit_bio (fresh_bio (next_id (mem s)))];
           completers := completers s |} lph sphs' ephs.
Proof.
  intros I Hreg.
  exists (sphs ++ [S_Fresh (next_id (mem s))]).
  assert (Q : is_quiet lph = false).
  { destruct (is_quiet lph) eqn:Q; auto.
    destruct (inv_quiet _ _ _ _ I Q) as (_ & _ & _ & Hn). congruence. }
  facts I.
  apply (inv_thread_update _ _ _ _ _ _ _ I Q); simpl; auto.
  all: try (apply Forall2_app; auto; constructor; [| constructor];
            apply (sbdd_submit_bio_conforms (fresh_bio (next_id (mem s))))).
  all: norm; fin I.
Qed.

Lemma step_backing_inv s lph sphs ephs l1 c l2 st :
  inv s lph sphs ephs ->
  backing (mem s) = l1 ++ c :: l2 ->
  exists ephs',
    inv {| mem := log (EvComplete (set_bi_status c st)) (with_backing (mem s) (l1 ++ l2));
           life := life s; submitters := submitters s;
           completers := completers s ++ spawn_end_io (set_bi_status c st) |}
        lph sphs ephs'.
Proof.
  intros I Hbk.
  pose proof (inv_backing _ _ _ _ I) as Fb. rewrite Hbk in Fb.
  apply Forall_app in Fb. destruct Fb as [Fb1 Fb2].
  inversion Fb2 as [| c0 l0 [Hend [o Hpriv]] Fb3]; subst.
  exists (ephs ++ [E_Owes (bi_id o)]).
  assert (Q : is_quiet lph = false).
  { destruct (is_quiet lph) eqn:Q; auto.
    destruct (inv_quiet _ _ _ _ I Q) as (_ & _ & Hn & _).
    rewrite Hbk in Hn. destruct l1; discriminate. }
  facts I.
  assert (Ho : orig_id c = bi_id o) by (unfold orig_id; now rewrite Hpriv).
  apply (inv_thread_update _ _ _ _ _ _ _ I Q); simpl; auto.
  all: try (unfold spawn_end_io; simpl; rewrite Hend; simpl;
            apply Forall2_app; auto; constructor; [| constructor];
            apply sbdd_bio_endio_conforms; simpl; exact Hpriv).
  all: try (apply Forall_app; auto; fail).
  all: norm; rewrite ?Ho in *; fin I.
Qed.


Ltac use_refl :=
  repeat match goal with
         | H : ?x = ?x -> _ |- _ => specialize (H eq_refl)
         | H : false = true -> _ |- _ => clear H
         | H : true = false -> _ |- _ => clear H
         | H : forall o g, L_D1 ?a ?b = L_D1 o g -> _ |- _ => specialize (H _ _ eq_refl)
         | H : forall g, L_Init true ?b = L_Init true g -> _ |- _ => specialize (H _ eq_refl)
         | H : forall h, L_Init ?a true = L_Init h true -> _ |- _ => specialize (H _ eq_refl)
         | H : _ /\ _ |- _ => destruct H
         end.

Ltac more_prop :=
  repeat match goal with
         | H : ptr_eqb _ _ = true |- _ => apply ptr_eqb_eq in H
         | H : L_Init _ _ = L_Init _ _ |- _ => injection H as ? ?
         | H : valid_ptr ?x = true |- _ =>
             lazymatch goal with
             | _ : non_null x = true |- _ => fail
             | _ => pose proof (valid_non_null _ H)
             end
         | H : context [wrap_int ?x] |- _ => rewrite (wrap_int_small x) in H by lia
         end.

Ltac lfin :=
  intros; unfold held, INT_MAX in *;
  repeat first
    [ progress use_refl
    | progress subst
    | match goal with
      | o : origin |- _ => destruct o
      | H : backing (mem ?s) = [] |- _ => progress (rewrite H in * )
      | H : _ \/ _ |- _ => destruct H
      end
    | progress simpl in * ];
  to_prop; more_prop; try subst;
  try discriminate; try congruence; try tauto;
  try (rewrite ?wrap_int_small by lia; lia); eauto;
  try match goal with
      | H : _ \/ _ -> ?G |- ?G => apply H; solve [left; assumption | right; reflexivity]
      | |- registered ?w = false =>
          destruct (registered w) eqn:?; [exfalso | reflexivity];
          match goal with H : _ \/ _ -> _ |- _ =>
            specialize (H (or_introl eq_refl)); congruence end
      | |- _ /\ _ =>
          split; [try (rewrite ?wrap_int_small by lia; lia); try congruence; try tauto
                 | intros; try congruence; try tauto; eauto; try (left; congruence)]
      end;
  try match goal with
      | |- registered ?w = false =>
          destruct (registered w) eqn:?; [exfalso | reflexivity];
          match goal with H : _ \/ _ -> _ |- _ =>
            specialize (H (or_introl eq_refl)); congruence end
      end.

(** The lifecycle thread dies in a release call: nothing but the trace
    changes. *)
Lemma inv_life_oops s lph sphs ephs R (c : call R) :
  inv s lph sphs ephs ->
  is_drained lph = true ->
  inv {| mem := log (EvOops c) (mem s); life := Oops; submitters := submitters s;
         completers := completers s |} lph sphs ephs.
Proof.
  intros I D.
  pose proof (inv_drained _ _ _ _ I) as Jd.
  pose proof (inv_removed _ _ _ _ I) as Jm.
  pose proof (inv_release _ _ _ _ I) as Jl.
  constructor; simpl; try apply I.
  - exact Logic.I.
  - intros _. destruct (Jd D). auto.
  - intros M. destruct (Jm M). auto.
  - intros ev [<- | Hin] Hrel; [assumption | eauto].
Qed.

Lemma step_life_inv s lph sphs ephs e t' w' :
  inv s lph sphs ephs ->
  tstep e (life s) (mem s) = Some (t', w') ->
  in_driver s < INT_MAX ->
  exists lph',
    inv {| mem := w'; life := t'; submitters := submitters s;
           completers := completers s |} lph' sphs ephs.
Proof.
  intros I Hstep Hb.
  pose proof (inv_life _ _ _ _ I) as Hok.
  destruct (life s) as [a | | R c k]; simpl in Hstep; try discriminate.
  destruct (exec e c (mem s)) as [r w1 | | w1] eqn:E; [| discriminate |].
  2: { injection Hstep as <- <-.
       destruct (life_oops _ _ _ _ _ _ _ Hok E) as (-> & Hrel & Hdr & _).
       exists lph. now apply inv_life_oops. }
  injection Hstep as <- <-.
  unfold life_ok in Hok. simpl in Hok. specialize (Hok r).
  destruct (life_next lph R c r) as [lph' |] eqn:N; [| contradiction].
  exists lph'.
  pose proof (held_bound _ _ _ _ I) as HB.
  unfold exec in E.
  destruct I.
  destruct c; simpl in N; try discriminate;
    try (destruct v; simpl in N; try discriminate);
    destruct lph; simpl in N; try discriminate;
    simpl in E; split_hyp E; split_ptr E; inversion E; subst; clear E;
    split_hyp N; inversion N; subst; clear N.
  all: to_prop; try subst.
  all: constructor; simpl in *; auto.
  all: lfin.
Qed.

Lemma inv_init : inv system0 (L_Init false false) [] [].
Proof.
  constructor; simpl; auto; try discriminate; try tauto;
    try apply module_life_conforms; try (intros; reflexivity); try (intros; contradiction);
    try (intros [|]; discriminate).
Qed.

Lemma reachable_bound s : reachable s -> in_driver s < INT_MAX.
Proof. destruct 1; [reflexivity | assumption]. Qed.

Lemma life_step_backing s lph sphs ephs e t' w' :
  inv s lph sphs ephs ->
  tstep e (life s) (mem s) = Some (t', w') ->
  backing w' = backing (mem s).
Proof.
  intros I Hstep.
  pose proof (inv_life _ _ _ _ I) as Hok.
  destruct (life s) as [a | | R c k]; simpl in Hstep; try discriminate.
  destruct (exec e c (mem s)) as [r w1 | | w1] eqn:E; [| discriminate |].
  2: { injection Hstep as <- <-.
       destruct (life_oops _ _ _ _ _ _ _ Hok E) as (-> & _). reflexivity. }
  injection Hstep as <- <-.
  unfold life_ok in Hok. simpl in Hok. specialize (Hok r).
  destruct (life_next lph R c r) as [lph' |] eqn:N; [| contradiction].
  unfold exec in E.
  destruct c; simpl in N; try discriminate;
    simpl in E; split_hyp E; split_ptr E; inversion E; subst; reflexivity.
Qed.

(** The invariant holds in every reachable state. *)
Theorem reachable_invariant s : reachable s -> invariant s.
Proof.
  induction 1 as [| s a s' Hr IH Hstep Hb].
  - exists (L_Init false false), [], []. apply inv_init.
  - destruct IH as (lph & sphs & ephs & I).
    destruct Hstep.
    + destruct (step_life_inv _ _ _ _ _ _ _ I H (reachable_bound _ Hr)) as (lph' & I').
      now exists lph', sphs, ephs.
    + destruct (step_arrive_inv _ _ _ _ I H) as (sphs' & I').
      now exists lph, sphs', ephs.
    + destruct (step_submit_inv _ _ _ _ _ _ _ _ _ _ I H H0 Hb) as (sphs' & I').
      now exists lph, sphs', ephs.
    + destruct (step_backing_inv _ _ _ _ _ _ _ st I H) as (ephs' & I').
      now exists lph, sphs, ephs'.
    + destruct (step_endio_inv _ _ _ _ _ _ _ _ _ _ I H H0 Hb) as (ephs' & I').
      now exists lph, sphs, ephs'.
Qed.

Lemma refs_range s : reachable s -> 0 <= refs_cnt (dev (mem s)) <= INT_MAX.
Proof.
  intros Hr. destruct (reachable_invariant _ Hr) as (lph & sphs & ephs & I).
  pose proof (held_bound _ _ _ _ I). pose proof (reachable_bound _ Hr).
  pose proof (base_range lph). rewrite (inv_refs _ _ _ _ I). lia.
Qed.

(** What a step of a submitter can do to the shared state. *)
Lemma sub_step_frame ph t e w t' w' :
  sub_ok ph t ->
  tstep e t w = Some (t', w') ->
  deleting (dev w') = deleting (dev w) /\
  (exists ev, trace w' = ev :: trace w /\
              is_disk_release ev || is_handle_release ev = false) /\
  (refs_cnt (dev w') = refs_cnt (dev w) \/
   refs_cnt (dev w) <> 0 /\ refs_cnt (dev w') = wrap_int (refs_cnt (dev w) + 1)).
Proof.
  intros Hok Hstep.
  destruct t as [a | | R c k]; simpl in Hstep; try discriminate.
  destruct (exec e c w) as [r w1 | | w1] eqn:E;
    [| discriminate | destruct (sub_no_oops _ _ _ _ _ _ _ Hok E)].
  injection Hstep as <- <-.
  unfold sub_ok in Hok. simpl in Hok. specialize (Hok r).
  destruct (sub_next ph R c r) as [ph' |] eqn:N; [| contradiction].
  unfold exec in E.
  destruct c; simpl in N; try discriminate;
    try (destruct v; simpl in N; try discriminate);
    destruct ph; simpl in N; try discriminate;
    simpl in E; split_hyp E; inversion E; subst; clear E; to_prop;
    simpl; repeat split; eauto.
Qed.

Lemma endio_step_frame ph t e w t' w' :
  endio_ok ph t ->
  tstep e t w = Some (t', w') ->
  deleting (dev w') = deleting (dev w) /\
  (exists ev, trace w' = ev :: trace w /\
              is_disk_release ev || is_handle_release ev = false).
Proof.
  intros Hok Hstep.
  destruct t as [a | | R c k]; simpl in Hstep; try discriminate.
  destruct (exec e c w) as [r w1 | | w1] eqn:E;
    [| discriminate | destruct (endio_no_oops _ _ _ _ _ _ _ Hok E)].
  injection Hstep as <- <-.
  unfold endio_ok in Hok. simpl in Hok. specialize (Hok r).
  destruct (endio_next ph R c r) as [ph' |] eqn:N; [| contradiction].
  unfold exec in E.
  destruct c; simpl in N; try discriminate;
    try (destruct v; simpl in N; try discriminate);
    destruct ph; simpl in N; try discriminate;
    simpl in E; split_hyp E; inversion E; subst; clear E; to_prop;
    simpl; repeat split; eauto.
Qed.

Lemma life_step_frame lph t e w t' w' :
  life_ok lph t ->
  tstep e t w = Some (t', w') ->
  (deleting (dev w) <> 0 -> deleting (dev w') <> 0) /\
  exists ev, trace w' = ev :: trace w /\
             (is_disk_release ev || is_handle_release ev = true ->
              is_drained lph = true) /\
             (is_handle_release ev = true -> is_removed lph = true).
Proof.
  intros Hok Hstep.
  destruct t as [a | | R c k]; simpl in Hstep; try discriminate.
  destruct (exec e c w) as [r w1 | | w1] eqn:E; [| discriminate |].
  2: { injection Hstep as <- <-.
       destruct (life_oops _ _ _ _ _ _ _ Hok E) as (-> & _ & Hdr & Hrm).
       split; [auto |]. eexists. split; [reflexivity |]. auto. }
  injection Hstep as <- <-.
  unfold life_ok in Hok. simpl in Hok. specialize (Hok r).
  destruct (life_next lph R c r) as [lph' |] eqn:N; [| contradiction].
  unfold exec in E.
  destruct c; simpl in N; try discriminate;
    try (destruct v; simpl in N; try discriminate);
    destruct lph; simpl in N; try discriminate;
    simpl in E; split_hyp E; split_ptr E; inversion E; subst; clear E;
    split_hyp N; to_prop; try subst;
    (split; [simpl; auto; intros _; discriminate |]);
    eexists; (split; [reflexivity |]); simpl; split; auto; discriminate.
Qed.

Lemma wrap_inc_nonneg x :
  0 <= x <= INT_MAX -> 0 <= wrap_int (x + 1) -> wrap_int (x + 1) = x + 1.
Proof.
  unfold INT_MAX. intros Hx Hw.
  destruct (Z.eq_dec x 2147483647) as [-> | Hne].
  - vm_compute in Hw. contradiction.
  - apply wrap_int_small. lia.
Qed.

(** C1.  In every reachable state [refs_cnt] is not negative, and a step of
    a submitter either leaves it alone or increments it by one from a
    non-zero value. *)
Theorem refs_cnt_never_negative (s : system) :
  reachable s ->
  0 <= refs_cnt (dev (mem s)) /\
  forall s', step s Submitter s' -> in_driver s' < INT_MAX ->
    refs_cnt (dev (mem s')) = refs_cnt (dev (mem s)) \/
    refs_cnt (dev (mem s)) <> 0 /\
    refs_cnt (dev (mem s')) = refs_cnt (dev (mem s)) + 1.
Proof.
  intros Hr. split; [apply (refs_range _ Hr) |].
  intros s' Hstep Hb.
  pose proof (refs_range _ Hr) as R0.
  pose proof (refs_range _ (reach_step _ _ _ Hr Hstep Hb)) as R1.
  destruct (reachable_invariant _ Hr) as (lph & sphs & ephs & I).
  inversion Hstep as [| | s0 e l1 t l2 t' w' Hs Ht | |]; subst. simpl in *.
  pose proof (inv_subs _ _ _ _ I) as F. rewrite Hs in F.
  apply Forall2_app_inv_r in F. destruct F as (p1 & p2' & F1 & F2 & ->).
  inversion F2 as [| ph t0 p2 l2' Hok F3]; subst.
  destruct (sub_step_frame _ _ _ _ _ _ Hok Ht) as (_ & _ & [E | [Hn E]]).
  - now left.
  - right. split; [assumption |]. rewrite E in *. now apply wrap_inc_nonneg.
Qed.

(** C5.  A call of [del_gendisk], [put_disk] or [bdev_release] is made by the
    lifecycle thread, in a state where [refs_cnt] is zero, no clone is pending
    at the backing device and [wait_event] has returned; [bdev_release] is
    called with the disk out of the routing table, after [del_gendisk] when
    there is a disk. *)
Theorem release_only_after_drain (s s' : system) (a : actor) (ev : event) :
  reachable s ->
  step s a s' ->
  trace (mem s') = ev :: trace (mem s) ->
  is_disk_release ev || is_handle_release ev = true ->
  a = Lifecycle /\
  refs_cnt (dev (mem s)) = 0 /\
  backing (mem s) = [] /\
  In (Ev (wait_event_zero a_refs_cnt) tt) (trace (mem s)) /\
  (is_handle_release ev = true ->
   registered (mem s) = false /\
   (non_null (gd (dev (mem s))) = true ->
    In (Ev (del_gendisk (gd (dev (mem s)))) tt) (trace (mem s)))).
Proof.
  intros Hr Hstep Htr Hrel.
  destruct (reachable_invariant _ Hr) as (lph & sphs & ephs & I).
  destruct Hstep as [s e t' w' Ht | s Hreg | s e l1 t l2 t' w' Hs Ht
                    | s l1 c l2 st Hbk | s e l1 t l2 t' w' Hs Ht]; simpl in Htr.
  - destruct (life_step_frame _ _ _ _ _ _ (inv_life _ _ _ _ I) Ht)
      as (_ & ev' & Hev & Hd & Hm).
    rewrite Hev in Htr. injection Htr as ->.
    specialize (Hd Hrel).
    destruct (inv_drained _ _ _ _ I Hd) as [Hz Hw].
    split; [reflexivity |]. split; [assumption |].
    split.
    { pose proof (inv_refs _ _ _ _ I) as Jr.
      pose proof (holds_sub_bound sphs). pose proof (holds_endio_bound ephs).
      rewrite (drained_base _ Hd) in Jr. unfold held in Jr.
      destruct (backing (mem s)); [reflexivity | simpl in Jr; lia]. }
    split; [assumption |].
    intros Hh. apply (inv_removed _ _ _ _ I). auto.
  - injection Htr as <-. discriminate.
  - pose proof (inv_subs _ _ _ _ I) as F. rewrite Hs in F.
    apply Forall2_app_inv_r in F. destruct F as (p1 & p2' & F1 & F2 & ->).
    inversion F2 as [| ph t0 p2 l2' Hok F3]; subst.
    destruct (sub_step_frame _ _ _ _ _ _ Hok Ht) as (_ & (ev' & Hev & Hn) & _).
    rewrite Hev in Htr. injection Htr as ->. congruence.
  - injection Htr as <-. discriminate.
  - pose proof (inv_endios _ _ _ _ I) as F. rewrite Hs in F.
    apply Forall2_app_inv_r in F. destruct F as (p1 & p2' & F1 & F2 & ->).
    inversion F2 as [| ph t0 p2 l2' Hok F3]; subst.
    destruct (endio_step_frame _ _ _ _ _ _ Hok Ht) as (_ & (ev' & Hev & Hn)).
    rewrite Hev in Htr. injection Htr as ->. congruence.
Qed.

Lemma put_back_not_ret l1 t t' l2 :
  Forall not_ret (l1 ++ t :: l2) -> Forall not_ret (put_back l1 t' l2).
Proof.
  intros F. apply Forall_app in F. destruct F as [F1 F2].
  inversion F2; subst.
  destruct t'; simpl; apply Forall_app; split; auto.
  all: constructor; simpl; auto.
Qed.

Lemma spawn_not_ret c : Forall not_ret (spawn_end_io c).
Proof.
  unfold spawn_end_io. destruct (bi_end_io c) as [[] |]; [| constructor].
  constructor; [| constructor]. simpl. unfold sbdd_bio_endio, deref_bio.
  destruct (negb (bi_status c =? BLK_STS_OK)), (bi_private c); simpl; exact I.
Qed.

Lemma reachable_not_ret s : reachable s -> Forall not_ret (completers s).
Proof.
  induction 1 as [| s a s' Hr IH Hstep Hb]; [constructor |].
  destruct Hstep; simpl; auto.
  - apply Forall_app. split; [assumption | apply spawn_not_ret].
  - rewrite H in IH. eapply put_back_not_ret; eauto.
Qed.

Lemma Forall2_in_right {A B} (P : A -> B -> Prop) l1 l2 y :
  Forall2 P l1 l2 -> In y l2 -> exists x, In x l1 /\ P x y.
Proof.
  induction 1 as [| x y' l1 l2 Hp F IH]; simpl; [tauto |].
  intros [-> | Hin]; [exists x; auto |].
  destruct (IH Hin) as (x' & ? & ?). exists x'. auto.
Qed.

(** The completion handler can always take its next step. *)
Lemma endio_never_stuck ph t e w :
  endio_ok ph t -> not_ret t -> tstep e t w <> None.
Proof.
  intros Hok Hn.
  destruct t as [a | | R c k]; simpl in *; try contradiction.
  unfold exec.
  destruct c; simpl; try discriminate;
    first [specialize (Hok tt) | specialize (Hok 0) | specialize (Hok true)
          | specialize (Hok NULL) | specialize (Hok None)];
    simpl in Hok; try contradiction;
    try (destruct v; try contradiction);
    destruct ph; try contradiction.
  all: try discriminate.
  all: try (destruct (env_split e); discriminate).
  all: try (destruct (env_clone e); discriminate).
  all: try (match goal with |- context [if ?c then _ else _] => destruct c end; discriminate).
Qed.

(** C9.  The backing device completing each submitted clone once, no
    request ever receives more than one completion signal, decrements never
    outnumber submissions, the completion handler is never stuck, and once
    nothing is pending every admitted request has received exactly one
    signal and there were as many decrements as submissions and as successful
    increments. *)
Theorem completion_exactly_once (s : system) :
  reachable s ->
  (forall b, (signals b (trace (mem s)) <= 1)%nat) /\
  count is_dec (trace (mem s)) <= count is_submit (trace (mem s)) /\
  count is_submit (trace (mem s)) <= count is_inc_ok (trace (mem s)) /\
  (forall t e, In t (completers s) -> tstep e t (mem s) <> None) /\
  (quiescent s ->
   (forall b, In b (submitted (trace (mem s))) -> signals b (trace (mem s)) = 1%nat) /\
   count is_dec (trace (mem s)) = count is_submit (trace (mem s)) /\
   count is_submit (trace (mem s)) = count is_inc_ok (trace (mem s))).
Proof.
  intros Hr.
  destruct (reachable_invariant _ Hr) as (lph & sphs & ephs & I).
  pose proof (holds_sub_bound sphs) as HS.
  pose proof (holds_endio_bound ephs) as HE.
  pose proof (inv_count_dec _ _ _ _ I) as C1.
  pose proof (inv_count_inc _ _ _ _ I) as C2.
  assert (U : forall b, (signals b (trace (mem s)) <= 1)%nat).
  { intros b. pose proof (inv_unique _ _ _ _ I b) as U.
    unfold signals, all_ids in *. rewrite occ_app in U. lia. }
  split; [exact U |]. split; [lia |]. split; [lia |]. split.
  - intros t e Hin.
    pose proof (reachable_not_ret _ Hr) as Hn.
    rewrite Forall_forall in Hn.
    destruct (Forall2_in_right _ _ _ _ (inv_endios _ _ _ _ I) Hin) as (ph & _ & Hok).
    eapply endio_never_stuck; eauto.
  - intros (Qs & Qc & Qb).
    pose proof (inv_subs _ _ _ _ I) as Fs. rewrite Qs in Fs. inversion Fs; subst.
    pose proof (inv_endios _ _ _ _ I) as Fe. rewrite Qc in Fe. inversion Fe; subst.
    rewrite Qb in *. simpl in *. rewrite ?sumZ_nil in *.
    split; [| lia].
    intros b Hin. pose proof (inv_admitted _ _ _ _ I b Hin) as A.
    unfold pending in A. rewrite ?Qb in A. simpl in A. rewrite ?occ_nil in A.
    specialize (U b). unfold signals in *. lia.
Qed.

Lemma sbdd_submit_bio_late bio0 : late_ok bio0 Lt_Fresh (sbdd_submit_bio bio0).
Proof.
  unfold late_ok, sbdd_submit_bio, deref. cbn.
  repeat (conf_step; try (split; reflexivity)).
Qed.

Lemma late_step bio0 ph t evs e w t' w' ev :
  late_ok bio0 ph t ->
  late_seen ph evs ->
  deleting (dev w) <> 0 ->
  tstep e t w = Some (t', w') ->
  trace w' = ev :: trace w ->
  exists ph',
    late_ok bio0 ph' t' /\ late_seen ph' (ev :: evs) /\ calm ev /\
    deleting (dev w') <> 0.
Proof.
  intros Hok Hseen Hd Hstep Htr.
  destruct t as [a | | R c k]; simpl in Hstep; try discriminate.
  destruct (exec e c w) as [r w1 | | w1] eqn:E; [| discriminate |].
  2: { exfalso. unfold late_ok in Hok. simpl in Hok. unfold exec in E.
       destruct c; simpl in E; split_hyp E; split_ptr E;
         specialize (Hok tt); destruct ph; simpl in *; contradiction. }
  injection Hstep as <- <-.
  unfold late_ok in Hok. simpl in Hok. specialize (Hok r).
  destruct (late_next ph R c r) as [ph' |] eqn:N; [| contradiction].
  exists ph'. unfold exec in E.
  destruct ph; simpl in Hseen; try contradiction;
    destruct c; simpl in N; try discriminate;
    try (destruct v; simpl in N; try discriminate);
    simpl in E; split_hyp E; inversion E; subst; clear E;
    simpl in Htr; injection Htr as <-;
    inversion N; subst; clear N; to_prop;
    try (exfalso; congruence);
    try (destruct (deleting (dev w) =? 0) eqn:Z0; [apply Z.eqb_eq in Z0; contradiction |]);
    unfold calm; simpl; auto 10.
Qed.

Lemma late_run bio0 w evs t' w' :
  deleting (dev w) <> 0 ->
  sub_run (sbdd_submit_bio bio0) w evs t' w' ->
  deleting (dev w') <> 0 /\
  Forall calm evs /\
  exists ph, late_ok bio0 ph t' /\ late_seen ph evs.
Proof.
  intros Hd Hrun.
  remember (sbdd_submit_bio bio0) as t0 eqn:Et.
  induction Hrun as [t w | t w evs t1 w1 e t2 w2 ev Hrun IH Hstep Htr
                    | t w evs t1 w1 w2 Hrun IH Hrely]; subst.
  - split; [assumption |]. split; [constructor |].
    exists Lt_Fresh. split; [apply sbdd_submit_bio_late | reflexivity].
  - destruct (IH Hd eq_refl) as (Hd1 & Hc & ph & Hok & Hseen).
    destruct (late_step _ _ _ _ _ _ _ _ _ Hok Hseen Hd1 Hstep Htr)
      as (ph' & Hok' & Hseen' & Hcalm & Hd2).
    split; [assumption |]. split; [constructor; assumption |].
    exists ph'. auto.
  - destruct (IH Hd eq_refl) as (Hd1 & Hc & ph & Hok & Hseen).
    split; [apply Hrely; assumption |]. split; [assumption |].
    exists ph. auto.
Qed.

Lemma step_rely s a s' : reachable s -> step s a s' -> rely (mem s) (mem s').
Proof.
  intros Hr Hstep.
  destruct (reachable_invariant _ Hr) as (lph & sphs & ephs & I).
  unfold rely.
  destruct Hstep as [s e t' w' Ht | s Hreg | s e l1 t l2 t' w' Hs Ht
                    | s l1 c l2 st Hbk | s e l1 t l2 t' w' Hs Ht]; simpl; auto.
  - apply (life_step_frame _ _ _ _ _ _ (inv_life _ _ _ _ I) Ht).
  - pose proof (inv_subs _ _ _ _ I) as F. rewrite Hs in F.
    apply Forall2_app_inv_r in F. destruct F as (p1 & p2' & F1 & F2 & ->).
    inversion F2 as [| ph t0 p2 l2' Hok F3]; subst.
    destruct (sub_step_frame _ _ _ _ _ _ Hok Ht) as (-> & _). auto.
  - pose proof (inv_endios _ _ _ _ I) as F. rewrite Hs in F.
    apply Forall2_app_inv_r in F. destruct F as (p1 & p2' & F1 & F2 & ->).
    inversion F2 as [| ph t0 p2 l2' Hok F3]; subst.
    destruct (endio_step_frame _ _ _ _ _ _ Hok Ht) as (-> & _). auto.
Qed.

(** One step of a submitter, as far as [refs_cnt] goes: the counter
    changes in the successful [atomic_inc_not_zero] only. *)
Lemma sub_step_admission ph t evs e w t' w' ev :
  sub_ok ph t ->
  admit_seen ph evs ->
  tstep e t w = Some (t', w') ->
  trace w' = ev :: trace w ->
  (exists ph', sub_ok ph' t' /\ admit_seen ph' (ev :: evs)) /\
  (refs_cnt (dev w') <> refs_cnt (dev w) -> is_inc_ok ev = true) /\
  (is_inc_ok ev = true ->
   refs_cnt (dev w) <> 0 /\ refs_cnt (dev w') = wrap_int (refs_cnt (dev w) + 1) /\
   count is_inc_ok evs = 0) /\
  (is_inc_fail ev = true -> refs_cnt (dev w) = 0 /\ refs_cnt (dev w') = 0) /\
  (is_submit ev = true -> count is_inc_ok evs = 1).
Proof.
  intros Hok Hseen Hstep Htr.
  destruct t as [a | | R c k]; simpl in Hstep; try discriminate.
  destruct (exec e c w) as [r w1 | | w1] eqn:E;
    [| discriminate | destruct (sub_no_oops _ _ _ _ _ _ _ Hok E)].
  injection Hstep as <- <-.
  unfold sub_ok in Hok. simpl in Hok. specialize (Hok r).
  destruct (sub_next ph R c r) as [ph' |] eqn:N; [| contradiction].
  split.
  { exists ph'. split; [exact Hok |].
    unfold exec in E.
    destruct c; simpl in N; try discriminate;
      try (destruct v; simpl in N; try discriminate);
      destruct ph; simpl in N; try discriminate;
      simpl in E; split_hyp E; inversion E; subst; clear E;
      simpl in Htr; injection Htr as <-;
      split_hyp N; inversion N; subst; clear N;
      unfold admit_seen in *; rewrite ?count_cons; simpl; auto; lia. }
  unfold exec in E.
  destruct c; simpl in N; try discriminate;
    try (destruct v; simpl in N; try discriminate);
    destruct ph; simpl in N; try discriminate;
    simpl in E; split_hyp E; inversion E; subst; clear E;
    simpl in Htr; injection Htr as <-; to_prop;
    unfold admit_seen in *; simpl;
    repeat split; try congruence; try discriminate; auto.
Qed.

(** A thread running [sbdd_submit_bio], whatever the others do in between,
    follows the submitter's protocol. *)
Lemma sub_run_admission bio0 w evs t' w' :
  sub_run (sbdd_submit_bio bio0) w evs t' w' ->
  exists ph, sub_ok ph t' /\ admit_seen ph evs.
Proof.
  intros Hrun.
  remember (sbdd_submit_bio bio0) as t0 eqn:Et.
  induction Hrun as [t w | t w evs t1 w1 e t2 w2 ev Hrun IH Hstep Htr
                    | t w evs t1 w1 w2 Hrun IH Hrely]; subst.
  - exists (S_Fresh (bi_id bio0)). split; [apply sbdd_submit_bio_conforms | reflexivity].
  - destruct (IH eq_refl) as (ph & Hok & Hseen).
    apply (sub_step_admission _ _ _ _ _ _ _ _ Hok Hseen Hstep Htr).
  - apply IH. reflexivity.
Qed.



(** ** Schedules are executions *)

Lemma do_move_step m s s' : do_move m s = Some s' -> step s (actor_of m) s'.
Proof.
  destruct m as [e | | e | st | e]; simpl.
  - destruct (tstep e (life s) (mem s)) as [[t' w'] |] eqn:E; [| discriminate].
    intros [= <-]. now apply (step_life s e).
  - destruct (registered (mem s)) eqn:E; [| discriminate].
    intros [= <-]. now apply step_arrive.
  - destruct (submitters s) as [| t l2] eqn:Es; [discriminate |].
    destruct (tstep e t (mem s)) as [[t' w'] |] eqn:E; [| discriminate].
    intros [= <-]. now apply (step_submit s e [] t l2).
  - destruct (backing (mem s)) as [| c l2] eqn:Eb; [discriminate |].
    intros [= <-]. now apply (step_backing s [] c l2).
  - destruct (completers s) as [| t l2] eqn:Es; [discriminate |].
    destruct (tstep e t (mem s)) as [[t' w'] |] eqn:E; [| discriminate].
    intros [= <-]. now apply (step_endio s e [] t l2).
Qed.

Lemma play_reachable ms : forall s s', reachable s -> play ms s = Some s' -> reachable s'.
Proof.
  induction ms as [| m ms IH]; simpl; intros s s' Hr.
  - now intros [= <-].
  - destruct (do_move m s) as [s1 |] eqn:E; [| discriminate].
    destruct (in_driver s1 <? INT_MAX) eqn:B; [| discriminate].
    apply IH. eapply reach_step; eauto using do_move_step.
    now apply Z.ltb_lt.
Qed.

Lemma after_reachable ms : reachable (after ms).
Proof.
  unfold after. destruct (play ms system0) as [s |] eqn:E.
  - eapply play_reachable; eauto. apply reach_init.
  - apply reach_init.
Qed.

Lemma refs_cnt_never_negative_witness :
  0 <= refs_cnt (dev (mem (after schedule_submit))) /\
  forall s', step (after schedule_submit) Submitter s' -> in_driver s' < INT_MAX ->
    refs_cnt (dev (mem s')) = refs_cnt (dev (mem (after schedule_submit))) \/
    refs_cnt (dev (mem (after schedule_submit))) <> 0 /\
    refs_cnt (dev (mem s')) = refs_cnt (dev (mem (after schedule_submit))) + 1.
Proof.
  apply (refs_cnt_never_negative (after schedule_submit)). apply after_reachable.
Defined.

Lemma release_only_after_drain_witness :
  (Lifecycle = Lifecycle /\
   refs_cnt (dev (mem (after schedule_drained))) = 0 /\
   backing (mem (after schedule_drained)) = [] /\
   In (Ev (wait_event_zero a_refs_cnt) tt) (trace (mem (after schedule_drained))) /\
   (is_handle_release (Ev (del_gendisk (Ptr 8192)) tt) = true ->
    registered (mem (after schedule_drained)) = false /\
    (non_null (gd (dev (mem (after schedule_drained)))) = true ->
     In (Ev (del_gendisk (gd (dev (mem (after schedule_drained))))) tt)
        (trace (mem (after schedule_drained)))))) /\
  (Lifecycle = Lifecycle /\
   refs_cnt (dev (mem (after schedule_disk_removed))) = 0 /\
   backing (mem (after schedule_disk_removed)) = [] /\
   In (Ev (wait_event_zero a_refs_cnt) tt) (trace (mem (after schedule_disk_removed))) /\
   (is_handle_release (Ev (bdev_release (Ptr 4096)) tt) = true ->
    registered (mem (after schedule_disk_removed)) = false /\
    (non_null (gd (dev (mem (after schedule_disk_removed)))) = true ->
     In (Ev (del_gendisk (gd (dev (mem (after schedule_disk_removed))))) tt)
        (trace (mem (after schedule_disk_removed)))))).
Proof.
  split.
  - apply (release_only_after_drain (after schedule_drained)
             (after (schedule_drained ++ [MLife env_healthy])) Lifecycle
             (Ev (del_gendisk (Ptr 8192)) tt)).
    + apply after_reachable.
    + apply (do_move_step (MLife env_healthy)). vm_compute. reflexivity.
    + vm_compute. reflexivity.
    + reflexivity.
  - apply (release_only_after_drain (after schedule_disk_removed)
             (after (schedule_disk_removed ++ [MLife env_healthy])) Lifecycle
             (Ev (bdev_release (Ptr 4096)) tt)).
    + apply after_reachable.
    + apply (do_move_step (MLife env_healthy)). vm_compute. reflexivity.
    + vm_compute. reflexivity.
    + reflexivity.
Defined.

Lemma completion_exactly_once_witness :
  (forall b, (signals b (trace (mem (after schedule_complete))) <= 1)%nat) /\
  count is_dec (trace (mem (after schedule_complete)))
    <= count is_submit (trace (mem (after schedule_complete))) /\
  count is_submit (trace (mem (after schedule_complete)))
    <= count is_inc_ok (trace (mem (after schedule_complete))) /\
  (forall t e, In t (completers (after schedule_complete)) ->
               tstep e t (mem (after schedule_complete)) <> None) /\
  (quiescent (after schedule_complete) ->
   (forall b, In b (submitted (trace (mem (after schedule_complete)))) ->
              signals b (trace (mem (after schedule_complete))) = 1%nat) /\
   count is_dec (trace (mem (after schedule_complete)))
     = count is_submit (trace (mem (after schedule_complete))) /\
   count is_submit (trace (mem (after schedule_complete)))
     = count is_inc_ok (trace (mem (after schedule_complete)))).
Proof.
  apply (completion_exactly_once (after schedule_complete)). apply after_reachable.
Defined.


(** ** More on the functions one at a time *)

Lemma wrap_int_round_trip r :
  -2147483648 <= r <= INT_MAX -> wrap_int (wrap_int (r + 1) - 1) = r.
Proof.
  unfold INT_MAX. intros H.
  destruct (Z.eq_dec r 2147483647) as [-> | Hne]; [vm_compute; reflexivity |].
  rewrite (wrap_int_small (r + 1)) by (unfold INT_MAX; lia).
  replace (r + 1 - 1) with r by lia. apply wrap_int_small. unfold INT_MAX; lia.
Qed.

Lemma remove_id_fresh i l :
  (forall j, In j l -> (j < i)%nat) -> remove_id i l = l.
Proof.
  unfold remove_id. induction l as [| j l IH]; simpl; intros H; [reflexivity |].
  destruct (Nat.eqb i j) eqn:E.
  - apply Nat.eqb_eq in E. specialize (H j (or_introl eq_refl)). lia.
  - simpl. f_equal. apply IH. auto.
Qed.

(** X1.  When [blk_alloc_disk] fails, [sbdd_create] returns the errno of the
    error pointer and leaves [__sbdd.gd] reset to [NULL]; the backing handle
    stays open and stored, the capacity is recorded, the counter and the flag
    are untouched, no disk is registered and [sbdd_create] itself releases
    nothing. *)
Theorem sbdd_create_disk_allocation_failure (e : env) (w : world) (h err : positive) :
  env_open e = Ptr h -> env_disk e = ERR_PTR err ->
  exists w',
    run e sbdd_create w = Done (Z.neg err) w' /\
    gd (dev w') = NULL /\ bd_handle (dev w') = Ptr h /\
    capacity (dev w') = env_sectors e /\
    refs_cnt (dev w') = refs_cnt (dev w) /\ deleting (dev w') = deleting (dev w) /\
    registered w' = registered w /\
    hd_error (trace w') = Some (Ev (store f_gd NULL) tt) /\
    filter is_disk_release (trace w') = filter is_disk_release (trace w) /\
    filter is_handle_release (trace w') = filter is_handle_release (trace w).
Proof.
  destruct e as [eo es ed ea esp ec]; simpl. intros -> ->.
  eexists. split; [vm_compute; reflexivity |]. repeat split.
Qed.

Lemma sbdd_create_disk_allocation_failure_witness :
  exists w',
    run env_alloc_fails sbdd_create world0 = Done (Z.neg ENOMEM) w' /\
    gd (dev w') = NULL /\ bd_handle (dev w') = Ptr 4096 /\
    capacity (dev w') = env_sectors env_alloc_fails /\
    refs_cnt (dev w') = refs_cnt (dev world0) /\ deleting (dev w') = deleting (dev world0) /\
    registered w' = registered world0 /\
    hd_error (trace w') = Some (Ev (store f_gd NULL) tt) /\
    filter is_disk_release (trace w') = filter is_disk_release (trace world0) /\
    filter is_handle_release (trace w') = filter is_handle_release (trace world0).
Proof.
  apply (sbdd_create_disk_allocation_failure env_alloc_fails world0 4096 ENOMEM); reflexivity.
Defined.

(** X2.  After a successful [sbdd_init] the disk is configured with logical
    and physical block sizes of 512 bytes, the driver's operations table and
    private data, the name "sbdd" and the backing device's sector count;
    nothing has been released and the flag is clear. *)
Theorem sbdd_init_configures_disk (e : env) (h g : positive) :
  env_open e = Ptr h -> env_disk e = Ptr g -> env_add_disk e = 0 ->
  exists w',
    run e sbdd_init world0 = Done 0 w' /\
    disk w' = {| logical_block_size := 512; physical_block_size := 512;
                 fops_set := true; private_data_set := true;
                 disk_name := "sbdd"; gd_capacity := env_sectors e |} /\
    gd (dev w') = Ptr g /\ bd_handle (dev w') = Ptr h /\
    deleting (dev w') = 0 /\ registered w' = true /\
    filter is_disk_release (trace w') = [] /\
    filter is_handle_release (trace w') = [].
Proof.
  destruct e as [eo es ed ea esp ec]; simpl. intros -> -> ->.
  eexists. split; [vm_compute; reflexivity |]. repeat split.
Qed.

Lemma sbdd_init_configures_disk_witness :
  exists w',
    run env_healthy sbdd_init world0 = Done 0 w' /\
    disk w' = {| logical_block_size := 512; physical_block_size := 512;
                 fops_set := true; private_data_set := true;
                 disk_name := "sbdd"; gd_capacity := env_sectors env_healthy |} /\
    gd (dev w') = Ptr 8192 /\ bd_handle (dev w') = Ptr 4096 /\
    deleting (dev w') = 0 /\ registered w' = true /\
    filter is_disk_release (trace w') = [] /\
    filter is_handle_release (trace w') = [].
Proof.
  apply (sbdd_init_configures_disk env_healthy 4096 8192); reflexivity.
Defined.

(** X3.  [sbdd_create] tests the result of [blk_alloc_disk] with [IS_ERR]
    only: a [NULL] result is stored in [__sbdd.gd] and dereferenced by the
    queue configuration, so creation and [sbdd_init] crash, with the backing
    handle still open. *)
Theorem sbdd_create_null_disk_is_dereferenced (e : env) (w : world) (h : positive) :
  env_open e = Ptr h -> env_disk e = NULL ->
  exists w',
    run e sbdd_create w = Crashed w' /\
    run e sbdd_init w = Crashed w' /\
    hd_error (trace w') = Some (Ev (store f_gd NULL) tt) /\
    bd_handle (dev w') = Ptr h /\
    filter is_handle_release (trace w') = filter is_handle_release (trace w).
Proof.
  destruct e as [eo es ed ea esp ec]; simpl. intros -> ->.
  eexists. split; [vm_compute; reflexivity |].
  split; [vm_compute; reflexivity |]. repeat split.
Qed.

Lemma sbdd_create_null_disk_is_dereferenced_witness :
  exists w',
    run {| env_open := Ptr 4096; env_sectors := 2048; env_disk := NULL;
           env_add_disk := 0; env_split := SplitWhole; env_clone := true |}
        sbdd_create world0 = Crashed w' /\
    run {| env_open := Ptr 4096; env_sectors := 2048; env_disk := NULL;
           env_add_disk := 0; env_split := SplitWhole; env_clone := true |}
        sbdd_init world0 = Crashed w' /\
    hd_error (trace w') = Some (Ev (store f_gd NULL) tt) /\
    bd_handle (dev w') = Ptr 4096 /\
    filter is_handle_release (trace w') = filter is_handle_release (trace world0).
Proof.
  apply (sbdd_create_null_disk_is_dereferenced
           {| env_open := Ptr 4096; env_sectors := 2048; env_disk := NULL;
              env_add_disk := 0; env_split := SplitWhole; env_clone := true |}
           world0 4096); reflexivity.
Defined.

(** X4.  With more than the baseline reference outstanding, [sbdd_delete]
    sets the flag, drops the baseline and then sleeps in [wait_event]: it
    has released nothing and the disk is still registered. *)
Theorem sbdd_delete_waits_for_references (e : env) (w : world) :
  1 < refs_cnt (dev w) <= INT_MAX ->
  exists w',
    run e sbdd_delete w = Blocked w' /\
    trace w' = Ev (atomic_dec_if_positive a_refs_cnt) (refs_cnt (dev w) - 1)
               :: Ev (atomic_set a_deleting 1) tt :: trace w /\
    deleting (dev w') = 1 /\
    refs_cnt (dev w') = refs_cnt (dev w) - 1 /\
    gd (dev w') = gd (dev w) /\ bd_handle (dev w') = bd_handle (dev w) /\
    registered w' = registered w /\ backing w' = backing w.
Proof.
  destruct w as [[d r cp g0 h0] dk reg bk cl nid tr]; simpl. intros Hr.
  unfold sbdd_delete, exec; simpl.
  rewrite (wrap_int_small (r - 1)) by (unfold INT_MAX in *; lia).
  destruct (r - 1 <? 0) eqn:E; [apply Z.ltb_lt in E; lia |]. simpl.
  destruct (r - 1 =? 0) eqn:E0; [apply Z.eqb_eq in E0; lia |].
  eexists. split; [reflexivity |]. simpl. repeat split.
Qed.

Lemma sbdd_delete_waits_for_references_witness :
  exists w',
    run env_healthy sbdd_delete (mem (after schedule_submit)) = Blocked w' /\
    trace w' = Ev (atomic_dec_if_positive a_refs_cnt)
                  (refs_cnt (dev (mem (after schedule_submit))) - 1)
               :: Ev (atomic_set a_deleting 1) tt :: trace (mem (after schedule_submit)) /\
    deleting (dev w') = 1 /\
    refs_cnt (dev w') = refs_cnt (dev (mem (after schedule_submit))) - 1 /\
    gd (dev w') = gd (dev (mem (after schedule_submit))) /\
    bd_handle (dev w') = bd_handle (dev (mem (after schedule_submit))) /\
    registered w' = registered (mem (after schedule_submit)) /\
    backing w' = backing (mem (after schedule_submit)).
Proof.
  apply (sbdd_delete_waits_for_references env_healthy (mem (after schedule_submit))).
  vm_compute. split; [reflexivity | discriminate].
Defined.

(** X5.  On a device with only the baseline reference, [sbdd_exit] runs to
    the end: it sets the flag, drops the counter to zero, passes the wait,
    removes and puts the disk and then releases the backing handle, each
    once and in this order.  It does not clear [__sbdd.gd] or
    [__sbdd.bd_handle]. *)
Theorem sbdd_exit_idle_device (e : env) (w : world) (g h : positive) :
  refs_cnt (dev w) = 1 -> gd (dev w) = Ptr g -> bd_handle (dev w) = Ptr h ->
  exists w',
    run e sbdd_exit w = Done tt w' /\
    trace w' = Ev (bdev_release (Ptr h)) tt
               :: Ev (load f_bd_handle) (Ptr h)
               :: Ev (put_disk (Ptr g)) tt
               :: Ev (del_gendisk (Ptr g)) tt
               :: Ev (load f_gd) (Ptr g)
               :: Ev (wait_event_zero a_refs_cnt) tt
               :: Ev (atomic_dec_if_positive a_refs_cnt) 0
               :: Ev (atomic_set a_deleting 1) tt :: trace w /\
    deleting (dev w') = 1 /\ refs_cnt (dev w') = 0 /\ registered w' = false /\
    gd (dev w') = Ptr g /\ bd_handle (dev w') = Ptr h /\
    backing w' = backing w /\ clones w' = clones w.
Proof.
  destruct w as [[d r cp g0 h0] dk reg bk cl nid tr]; simpl. intros -> -> ->.
  eexists. split; [vm_compute; reflexivity |]. repeat split.
Qed.

Lemma sbdd_exit_idle_device_witness :
  exists w',
    run env_healthy sbdd_exit world_live = Done tt w' /\
    trace w' = Ev (bdev_release (Ptr 4096)) tt
               :: Ev (load f_bd_handle) (Ptr 4096)
               :: Ev (put_disk (Ptr 8192)) tt
               :: Ev (del_gendisk (Ptr 8192)) tt
               :: Ev (load f_gd) (Ptr 8192)
               :: Ev (wait_event_zero a_refs_cnt) tt
               :: Ev (atomic_dec_if_positive a_refs_cnt) 0
               :: Ev (atomic_set a_deleting 1) tt :: trace world_live /\
    deleting (dev w') = 1 /\ refs_cnt (dev w') = 0 /\ registered w' = false /\
    gd (dev w') = Ptr 8192 /\ bd_handle (dev w') = Ptr 4096 /\
    backing w' = backing world_live /\ clones w' = clones world_live.
Proof.
  apply (sbdd_exit_idle_device env_healthy world_live 8192 4096); reflexivity.
Defined.

(** X6.  The completion handler releases the clone with [bio_put],
    decrements [refs_cnt] by exactly one and calls [wake_up] exactly when
    the counter has reached zero; it neither reads nor writes [deleting] and
    leaves the pointers, the backing queue and the registration alone. *)
Theorem sbdd_bio_endio_drops_reference (e : env) (w : world) (c orig : bio) :
  bi_private c = Some orig ->
  exists w' evs,
    run e (sbdd_bio_endio c) w = Done tt w' /\
    trace w' = evs ++ trace w /\
    refs_cnt (dev w') = wrap_int (refs_cnt (dev w) - 1) /\
    (In (Ev wake_up tt) evs <-> refs_cnt (dev w') = 0) /\
    In (Ev (bio_put c) tt) evs /\
    clones w' = remove_id (bi_id c) (clones w) /\
    deleting (dev w') = deleting (dev w) /\
    gd (dev w') = gd (dev w) /\ bd_handle (dev w') = bd_handle (dev w) /\
    backing w' = backing w /\ registered w' = registered w.
Proof.
  destruct c as [ci cs ce cp]; simpl. intros ->.
  unfold sbdd_bio_endio; simpl.
  destruct (cs =? BLK_STS_OK); simpl; unfold exec; simpl;
    destruct (wrap_int (refs_cnt (dev w) - 1) =? 0) eqn:E; simpl;
    [ eexists; eexists [_; _; _; _] | eexists; eexists [_; _; _]
    | eexists; eexists [_; _; _; _] | eexists; eexists [_; _; _] ];
    (split; [reflexivity |]); simpl; (split; [reflexivity |]);
    (split; [reflexivity |]);
    (split; [| repeat split; auto]).
  all: first [apply Z.eqb_eq in E | apply Z.eqb_neq in E].
  all: split; [intros H | intros H; try contradiction; simpl; auto].
  all: try assumption.
  all: simpl in H; repeat (destruct H as [H | H]; [discriminate H |]); contradiction.
Qed.

Lemma sbdd_bio_endio_drops_reference_witness :
  exists w' evs,
    run env_healthy (sbdd_bio_endio (Bio 1 BLK_STS_OK (Some end_io_sbdd) (Some (fresh_bio 0))))
        world_live = Done tt w' /\
    trace w' = evs ++ trace world_live /\
    refs_cnt (dev w') = wrap_int (refs_cnt (dev world_live) - 1) /\
    (In (Ev wake_up tt) evs <-> refs_cnt (dev w') = 0) /\
    In (Ev (bio_put (Bio 1 BLK_STS_OK (Some end_io_sbdd) (Some (fresh_bio 0)))) tt) evs /\
    clones w' = remove_id 1 (clones world_live) /\
    deleting (dev w') = deleting (dev world_live) /\
    gd (dev w') = gd (dev world_live) /\ bd_handle (dev w') = bd_handle (dev world_live) /\
    backing w' = backing world_live /\ registered w' = registered world_live.
Proof.
  apply (sbdd_bio_endio_drops_reference env_healthy world_live
           (Bio 1 BLK_STS_OK (Some end_io_sbdd) (Some (fresh_bio 0))) (fresh_bio 0)).
  reflexivity.
Defined.

(** The clone of an admitted request is freshly allocated. *)
Lemma sbdd_submit_bio_allocates (e : env) (w : world) (bio0 b : bio) (h : positive) :
  split_bio e w bio0 = Some b ->
  bd_handle (dev w) = Ptr h ->
  env_clone e = true ->
  deleting (dev w) = 0 ->
  refs_cnt (dev w) <> 0 ->
  exists w' c,
    run e (sbdd_submit_bio bio0) w = Done tt w' /\
    backing w' = backing w ++ [c] /\
    bi_private c = Some b /\
    (next_id w <= bi_id c)%nat /\
    clones w' = bi_id c :: clones w /\
    refs_cnt (dev w') = wrap_int (refs_cnt (dev w) + 1) /\
    completions (trace w') = completions (trace w).
Proof.
  destruct e as [eo es ed ea esp ec]; unfold split_bio.
  destruct w as [[d r cp g0 h0] dk reg bk cl nid tr]; simpl.
  intros Hs -> -> -> Hr.
  unfold sbdd_submit_bio, exec; simpl.
  destruct esp; try discriminate; injection Hs as <-;
    (destruct r; [congruence | |]); simpl;
    do 2 eexists; (split; [reflexivity |]); simpl; repeat split; auto.
  all: cbn; lia.
Qed.

Lemma sbdd_bio_endio_run (e : env) (w : world) (c orig : bio) :
  bi_private c = Some orig ->
  exists w',
    run e (sbdd_bio_endio c) w = Done tt w' /\
    refs_cnt (dev w') = wrap_int (refs_cnt (dev w) - 1) /\
    clones w' = remove_id (bi_id c) (clones w) /\
    completions (trace w') =
      (bi_id orig, if bi_status c =? BLK_STS_OK then bi_status orig else BLK_STS_IOERR)
      :: completions (trace w).
Proof.
  destruct c as [ci cs ce cp]; simpl. intros ->.
  unfold sbdd_bio_endio, completions; simpl.
  destruct (cs =? BLK_STS_OK) eqn:E; simpl; unfold exec; simpl;
    destruct (wrap_int (refs_cnt (dev w) - 1) =? 0); simpl;
    eexists; (split; [reflexivity |]); simpl; repeat split.
Qed.

(** X7.  Round trip: a request admitted by [sbdd_submit_bio] whose clone is
    then completed through its [bi_end_io] leaves [refs_cnt] and the set of
    allocated clones as they were before the submission, and the request the
    driver went on with has received one completion signal: [BLK_STS_IOERR]
    when the clone's status is not zero, the status the request itself
    carries otherwise. *)
Theorem submit_then_complete_restores_counter
    (e e' : env) (w : world) (bio0 b : bio) (h : positive) (st : Z) :
  split_bio e w bio0 = Some b ->
  bd_handle (dev w) = Ptr h ->
  env_clone e = true ->
  deleting (dev w) = 0 ->
  refs_cnt (dev w) <> 0 ->
  -2147483648 <= refs_cnt (dev w) <= INT_MAX ->
  (forall j, In j (clones w) -> (j < next_id w)%nat) ->
  exists w1 c w2,
    run e (sbdd_submit_bio bio0) w = Done tt w1 /\
    backing w1 = backing w ++ [c] /\
    In (bi_id c) (clones w1) /\
    run e' (end_io end_io_sbdd (set_bi_status c st)) w1 = Done tt w2 /\
    refs_cnt (dev w2) = refs_cnt (dev w) /\
    clones w2 = clones w /\
    completions (trace w2) =
      (bi_id b, if st =? BLK_STS_OK then bi_status b else BLK_STS_IOERR)
      :: completions (trace w).
Proof.
  intros Hs Hh Hc Hd Hr Hrange Hfresh.
  destruct (sbdd_submit_bio_allocates e w bio0 b h Hs Hh Hc Hd Hr)
    as (w1 & c & Hrun & Hbk & Hpriv & Hid & Hcl & Hrefs & Hcomp).
  destruct (sbdd_bio_endio_run e' w1 (set_bi_status c st) b Hpriv)
    as (w2 & Hrun2 & Hrefs2 & Hcl2 & Hcomp2).
  exists w1, c, w2.
  split; [assumption |]. split; [assumption |].
  split; [rewrite Hcl; now left |]. split; [exact Hrun2 |].
  split; [rewrite Hrefs2, Hrefs; now apply wrap_int_round_trip |].
  split.
  - rewrite Hcl2, Hcl. cbn [set_bi_status bi_id]. unfold remove_id. cbn [filter].
    rewrite Nat.eqb_refl. cbn [negb].
    apply remove_id_fresh. intros j Hj. specialize (Hfresh j Hj). lia.
  - rewrite Hcomp2, Hcomp. reflexivity.
Qed.

Lemma submit_then_complete_restores_counter_witness :
  exists w1 c w2,
    run env_healthy (sbdd_submit_bio (fresh_bio 7)) world_live = Done tt w1 /\
    backing w1 = backing world_live ++ [c] /\
    In (bi_id c) (clones w1) /\
    run env_healthy (end_io end_io_sbdd (set_bi_status c BLK_STS_NOSPC)) w1 = Done tt w2 /\
    refs_cnt (dev w2) = refs_cnt (dev world_live) /\
    clones w2 = clones world_live /\
    completions (trace w2) =
      (bi_id (fresh_bio 7),
       if BLK_STS_NOSPC =? BLK_STS_OK then bi_status (fresh_bio 7) else BLK_STS_IOERR)
      :: completions (trace world_live).
Proof.
  apply (submit_then_complete_restores_counter env_healthy env_healthy world_live
           (fresh_bio 7) (fresh_bio 7) 4096 BLK_STS_NOSPC);
    try reflexivity; try discriminate.
  - vm_compute. split; discriminate.
  - intros j [].
Defined.

(** X8.  [sbdd_submit_bio] never sleeps; it crashes only by dereferencing a
    handle that is [NULL] or an error pointer; and when it returns it has
    left the flag, the capacity, the pointers, the disk and its registration
    alone, and either changed neither the counter nor the backing queue, or
    found the flag clear and the counter non-zero, incremented the counter by
    one and queued one clone bound to the request and to
    [sbdd_bio_endio]. *)
Theorem sbdd_submit_bio_effect (e : env) (w : world) (bio0 : bio) :
  match run e (sbdd_submit_bio bio0) w with
  | Blocked _ => False
  | Crashed _ => split_bio e w bio0 <> None /\ valid_ptr (bd_handle (dev w)) = false
  | Done _ w' =>
      deleting (dev w') = deleting (dev w) /\ capacity (dev w') = capacity (dev w) /\
      gd (dev w') = gd (dev w) /\ bd_handle (dev w') = bd_handle (dev w) /\
      registered w' = registered w /\ disk w' = disk w /\
      (backing w' = backing w /\ refs_cnt (dev w') = refs_cnt (dev w) \/
       deleting (dev w) = 0 /\ refs_cnt (dev w) <> 0 /\
       exists c b,
         split_bio e w bio0 = Some b /\
         backing w' = backing w ++ [c] /\
         bi_private c = Some b /\ bi_end_io c = Some end_io_sbdd /\
         refs_cnt (dev w') = wrap_int (refs_cnt (dev w) + 1))
  end.
Proof.
  destruct e as [eo es ed ea esp ec]; unfold split_bio.
  destruct w as [[d r cp g0 h0] dk reg bk cl nid tr].
  unfold sbdd_submit_bio, exec; simpl.
  destruct esp; simpl; auto 10;
    (destruct h0; simpl; [split; [discriminate | reflexivity]
                         | split; [discriminate | reflexivity] |]);
    (destruct ec; simpl; [| auto 10]);
    (destruct d; simpl; [| auto 10 | auto 10]);
    (destruct r; simpl; [auto 10 | |]);
    repeat (split; [reflexivity |]); right;
    (split; [reflexivity |]); (split; [discriminate |]);
    do 2 eexists; repeat split.
Qed.

(** X9.  The module loaded and unloaded with no request in between never
    sleeps, whatever the collaborators answer.  It returns exactly when the
    open gives a handle and [blk_alloc_disk] does not give [NULL]; otherwise
    it oopses: in [sbdd_create] on a [NULL] handle or disk, and in the
    [bdev_release] of the deletion after a failed open.  When it returns, the
    flag is set, the counter is zero, no disk is registered, [bdev_release]
    was called once, and [del_gendisk] and [put_disk] were called once each
    when the disk was allocated and not at all when the allocation failed. *)
Theorem module_life_alone (e : env) :
  match run e module_life world0 with
  | Blocked _ => False
  | Crashed w' =>
      (valid_ptr (env_open e) = false \/ env_disk e = NULL) /\
      (IS_ERR (env_open e) = true ->
       hd_error (trace w') = Some (EvOops (bdev_release (env_open e))))
  | Done _ w' =>
      valid_ptr (env_open e) = true /\ env_disk e <> NULL /\
      deleting (dev w') = 1 /\ refs_cnt (dev w') = 0 /\ registered w' = false /\
      backing w' = [] /\
      filter is_handle_release (trace w') = [Ev (bdev_release (env_open e)) tt] /\
      count is_del_gendisk (trace w') = (if IS_ERR (env_disk e) then 0 else 1) /\
      count is_put_disk (trace w') = count is_del_gendisk (trace w')
  end.
Proof.
  destruct e as [eo es ed ea esp ec].
  destruct eo as [| eo | eo];
    [vm_compute; split; [auto | discriminate]
    | vm_compute; split; [auto | reflexivity] |].
  destruct ed as [| ed | ed];
    [vm_compute; split; [auto | discriminate] | vm_compute; repeat split; discriminate |].
  destruct ea as [| ea | ea]; vm_compute; repeat split; discriminate.
Qed.

(** ** More on the module under concurrency *)

Lemma perform_trace {R} e (c : call R) w r w' :
  perform e c w = Returns r w' -> trace w' = trace w.
Proof.
  intros P. destruct c; simpl in P; split_hyp P; split_ptr P; inversion P; subst;
    reflexivity.
Qed.

Lemma perform_oops {R} e (c : call R) w w' :
  perform e c w = Oopses w' -> w' = w.
Proof.
  intros P. destruct c; simpl in P; split_hyp P; split_ptr P; now inversion P.
Qed.

Lemma tstep_trace {A} e (t : prog A) w t' w' :
  tstep e t w = Some (t', w') -> exists ev, trace w' = ev :: trace w.
Proof.
  destruct t as [x | | R c k]; simpl; try discriminate.
  unfold exec. destruct (perform e c w) as [r w1 | | w1] eqn:P; [| discriminate |].
  - intros [= <- <-]. exists (Ev c r). simpl. f_equal. eapply perform_trace; eauto.
  - intros [= <- <-]. exists (EvOops c). simpl. f_equal.
    now rewrite (perform_oops _ _ _ _ P).
Qed.

(** Every step appends one event to the trace. *)
Lemma step_trace_grows s a s' :
  step s a s' -> exists ev, trace (mem s') = ev :: trace (mem s).
Proof.
  destruct 1; simpl; eauto using tstep_trace.
Qed.

Lemma registered_not_quiet s lph sphs ephs :
  inv s lph sphs ephs -> registered (mem s) = true -> is_quiet lph = false.
Proof.
  intros I Hreg. destruct (is_quiet lph) eqn:Q; auto.
  destruct (inv_quiet _ _ _ _ I Q) as (_ & _ & _ & Hn). congruence.
Qed.

Lemma held_counts s lph sphs ephs :
  inv s lph sphs ephs ->
  held sphs ephs (mem s) = count is_inc_ok (trace (mem s)) - count is_dec (trace (mem s)).
Proof.
  intros I. pose proof (inv_count_dec _ _ _ _ I). pose proof (inv_count_inc _ _ _ _ I).
  unfold held. lia.
Qed.

Lemma no_holder_no_duty ephs :
  sumZ (map holds_endio ephs) = 0 -> flat_map owned_endio ephs = [].
Proof.
  induction ephs as [| ph l IH]; cbn [map flat_map]; [reflexivity |].
  rewrite sumZ_cons. pose proof (holds_endio_bound l) as HB.
  destruct ph; cbn [holds_endio owned_endio app]; intros Hs; try lia; apply IH; lia.
Qed.

(** X10.  While the disk is registered and the flag is clear, [refs_cnt] is
    the baseline plus the successful increments minus the decrements made so
    far, so it is at least one; the stored handle may be dereferenced and
    [__sbdd.gd] is not [NULL]. *)
Theorem live_counter_accounting (s : system) :
  reachable s ->
  registered (mem s) = true ->
  deleting (dev (mem s)) = 0 ->
  refs_cnt (dev (mem s)) =
    1 + count is_inc_ok (trace (mem s)) - count is_dec (trace (mem s)) /\
  1 <= refs_cnt (dev (mem s)) /\
  valid_ptr (bd_handle (dev (mem s))) = true /\
  non_null (gd (dev (mem s))) = true.
Proof.
  intros Hr Hreg Hdel.
  destruct (reachable_invariant _ Hr) as (lph & sphs & ephs & I).
  pose proof (registered_not_quiet _ _ _ _ I Hreg) as Q.
  pose proof (inv_deleting _ _ _ _ I) as D. rewrite Hdel in D.
  pose proof (held_counts _ _ _ _ I) as HC.
  pose proof (held_bound _ _ _ _ I) as HB.
  pose proof (inv_refs _ _ _ _ I) as R.
  assert (B : base lph = 1).
  { destruct lph as [| | | | o | o | o | o g | o]; simpl in *; try discriminate; reflexivity. }
  repeat split; try lia.
  - apply (inv_handle _ _ _ _ I Q).
  - apply (inv_gd _ _ _ _ I). now left.
Qed.

Lemma live_counter_accounting_witness :
  refs_cnt (dev (mem (after schedule_submit))) =
    1 + count is_inc_ok (trace (mem (after schedule_submit)))
      - count is_dec (trace (mem (after schedule_submit))) /\
  1 <= refs_cnt (dev (mem (after schedule_submit))) /\
  valid_ptr (bd_handle (dev (mem (after schedule_submit)))) = true /\
  non_null (gd (dev (mem (after schedule_submit)))) = true.
Proof.
  apply (live_counter_accounting (after schedule_submit)).
  - apply after_reachable.
  - vm_compute. reflexivity.
  - vm_compute. reflexivity.
Defined.

(** X11.  While the disk is registered, [refs_cnt] is zero only when the
    flag is set and no request is outstanding: no clone is at the backing
    device, every successful increment has been matched by a decrement and
    every admitted request has received exactly one completion signal. *)
Theorem zero_counter_means_deleting (s : system) :
  reachable s ->
  registered (mem s) = true ->
  refs_cnt (dev (mem s)) = 0 ->
  deleting (dev (mem s)) = 1 /\
  backing (mem s) = [] /\
  count is_dec (trace (mem s)) = count is_inc_ok (trace (mem s)) /\
  forall b, In b (submitted (trace (mem s))) -> signals b (trace (mem s)) = 1%nat.
Proof.
  intros Hr Hreg Hz.
  destruct (reachable_invariant _ Hr) as (lph & sphs & ephs & I).
  pose proof (registered_not_quiet _ _ _ _ I Hreg) as Q.
  pose proof (inv_deleting _ _ _ _ I) as D.
  pose proof (held_counts _ _ _ _ I) as HC.
  pose proof (held_bound _ _ _ _ I) as HB.
  pose proof (base_range lph) as BR.
  pose proof (inv_refs _ _ _ _ I) as R.
  pose proof (holds_sub_bound sphs) as HS.
  pose proof (holds_endio_bound ephs) as HE.
  assert (B : base lph = 0) by lia.
  assert (Hb : backing (mem s) = []).
  { unfold held in *. destruct (backing (mem s)); [reflexivity | simpl in *; lia]. }
  split.
  { rewrite D. destruct lph as [| | | | [] | o | o | o g | o]; simpl in *;
      try discriminate; reflexivity. }
  split; [assumption |]. split; [lia |].
  intros b Hin.
  pose proof (inv_admitted _ _ _ _ I b Hin) as A.
  pose proof (inv_unique _ _ _ _ I b) as U.
  unfold all_ids, pending, signals in *. rewrite Hb in *.
  rewrite no_holder_no_duty in * by (unfold held in *; rewrite Hb in *; simpl in *; lia).
  rewrite ?occ_app in *. simpl in *. rewrite ?occ_nil in *. lia.
Qed.

Lemma zero_counter_means_deleting_witness :
  deleting (dev (mem (after schedule_exit_idle))) = 1 /\
  backing (mem (after schedule_exit_idle)) = [] /\
  count is_dec (trace (mem (after schedule_exit_idle)))
    = count is_inc_ok (trace (mem (after schedule_exit_idle))) /\
  forall b, In b (submitted (trace (mem (after schedule_exit_idle)))) ->
            signals b (trace (mem (after schedule_exit_idle))) = 1%nat.
Proof.
  apply (zero_counter_means_deleting (after schedule_exit_idle)).
  - apply after_reachable.
  - vm_compute. reflexivity.
  - vm_compute. reflexivity.
Defined.

(** X12.  Once [del_gendisk], [put_disk] or [bdev_release] has been called,
    [refs_cnt] is zero and stays zero after every further step, the flag is
    set, no clone is at the backing device, the decrements equal the
    successful increments and every admitted request has received exactly
    one completion signal. *)
Theorem after_release_nothing_outstanding (s : system) (ev : event) :
  reachable s ->
  In ev (trace (mem s)) ->
  is_disk_release ev || is_handle_release ev = true ->
  refs_cnt (dev (mem s)) = 0 /\
  deleting (dev (mem s)) = 1 /\
  backing (mem s) = [] /\
  count is_dec (trace (mem s)) = count is_inc_ok (trace (mem s)) /\
  (forall b, In b (submitted (trace (mem s))) -> signals b (trace (mem s)) = 1%nat) /\
  (forall s' a, step s a s' -> in_driver s' < INT_MAX -> refs_cnt (dev (mem s')) = 0).
Proof.
  intros Hr Hin Hrel.
  assert (Z0 : forall s0, reachable s0 -> In ev (trace (mem s0)) ->
                          refs_cnt (dev (mem s0)) = 0 /\ deleting (dev (mem s0)) = 1 /\
                          exists lph sphs ephs, inv s0 lph sphs ephs /\ base lph = 0).
  { intros s0 Hr0 Hin0.
    destruct (reachable_invariant _ Hr0) as (lph & sphs & ephs & I).
    pose proof (inv_release _ _ _ _ I ev Hin0 Hrel) as Dr.
    destruct (inv_drained _ _ _ _ I Dr) as [Hz _].
    split; [assumption |]. split.
    - rewrite (inv_deleting _ _ _ _ I). destruct lph; simpl in *; try discriminate; reflexivity.
    - exists lph, sphs, ephs. split; [assumption | now apply drained_base]. }
  destruct (Z0 s Hr Hin) as (Hz & Hd & lph & sphs & ephs & I & B).
  pose proof (held_counts _ _ _ _ I) as HC.
  pose proof (inv_refs _ _ _ _ I) as R.
  pose proof (holds_sub_bound sphs) as HS.
  pose proof (holds_endio_bound ephs) as HE.
  assert (Hb : backing (mem s) = []).
  { unfold held in *. destruct (backing (mem s)); [reflexivity | simpl in *; lia]. }
  split; [assumption |]. split; [assumption |]. split; [assumption |].
  split; [lia |]. split.
  - intros b Hb0.
    pose proof (inv_admitted _ _ _ _ I b Hb0) as A.
    pose proof (inv_unique _ _ _ _ I b) as U.
    unfold all_ids, pending, signals in *. rewrite Hb in *.
    rewrite no_holder_no_duty in * by (unfold held in *; rewrite Hb in *; simpl in *; lia).
    rewrite ?occ_app in *. simpl in *. rewrite ?occ_nil in *. lia.
  - intros s' a Hstep Hbd.
    apply (Z0 s' (reach_step _ _ _ Hr Hstep Hbd)).
    destruct (step_trace_grows _ _ _ Hstep) as (ev' & ->). now right.
Qed.

Lemma after_release_nothing_outstanding_witness :
  refs_cnt (dev (mem (after schedule_unload))) = 0 /\
  deleting (dev (mem (after schedule_unload))) = 1 /\
  backing (mem (after schedule_unload)) = [] /\
  count is_dec (trace (mem (after schedule_unload)))
    = count is_inc_ok (trace (mem (after schedule_unload))) /\
  (forall b, In b (submitted (trace (mem (after schedule_unload)))) ->
             signals b (trace (mem (after schedule_unload))) = 1%nat) /\
  (forall s' a, step (after schedule_unload) a s' -> in_driver s' < INT_MAX ->
                refs_cnt (dev (mem s')) = 0).
Proof.
  apply (after_release_nothing_outstanding (after schedule_unload)
           (Ev (bdev_release (Ptr 4096)) tt)).
  - apply after_reachable.
  - vm_compute. left. reflexivity.
  - reflexivity.
Defined.

Lemma sbdd_submit_bio_guarded b : guarded handle_ok (sbdd_submit_bio b).
Proof.
  unfold sbdd_submit_bio, deref. cbn.
  intros [x |] _; cbn; [| exact I].
  intros h Hh. rewrite Hh. cbn.
  intros [cl |] _; cbn; [| intros; exact I].
  intros d _. destruct (d =? 0); cbn; [| intros; exact I].
  intros [|] _; cbn; intros; exact I.
Qed.

Lemma put_back_Forall (P : prog unit -> Prop) l1 t t' l2 :
  Forall P (l1 ++ t :: l2) -> (not_ret t' -> P t') -> Forall P (put_back l1 t' l2).
Proof.
  intros F H. apply Forall_app in F. destruct F as [F1 F2]. inversion F2; subst.
  destruct t'; simpl; apply Forall_app; split; auto; constructor; auto; apply H; exact I.
Qed.

Lemma submitters_not_ret s : reachable s -> Forall not_ret (submitters s).
Proof.
  induction 1 as [| s a s' Hr IH Hstep Hb]; [constructor |].
  destruct Hstep; simpl; auto.
  - apply Forall_app. split; [assumption |]. constructor; [exact I | constructor].
  - rewrite H in IH. eapply put_back_Forall; eauto.
Qed.

(** A submitter reads [__sbdd.bd_handle] only while it may be dereferenced. *)
Lemma submitters_guarded s : reachable s -> Forall (guarded handle_ok) (submitters s).
Proof.
  induction 1 as [| s a s' Hr IH Hstep Hb]; [constructor |].
  destruct (reachable_invariant _ Hr) as (lph & sphs & ephs & I).
  destruct Hstep as [s e t' w' Ht | s Hreg | s e l1 t l2 t' w' Hs Ht
                    | s l1 c l2 st Hbk | s e l1 t l2 t' w' Hs Ht]; simpl; auto.
  - apply Forall_app. split; [assumption |].
    constructor; [apply sbdd_submit_bio_guarded | constructor].
  - rewrite Hs in IH. eapply put_back_Forall; [exact IH |]. intros _.
    apply Forall_app in IH. destruct IH as [_ IH]. inversion IH as [| t0 l0 G _]; subst.
    assert (Q : is_quiet lph = false).
    { destruct (is_quiet lph) eqn:Q; auto.
      destruct (inv_quiet _ _ _ _ I Q) as (Hn & _).
      pose proof (Forall2_length _ _ _ (inv_subs _ _ _ _ I)) as L.
      rewrite Hn, Hs, length_app in L. simpl in L. lia. }
    pose proof (inv_handle _ _ _ _ I Q) as Hv.
    pose proof (inv_subs _ _ _ _ I) as F. rewrite Hs in F.
    apply Forall2_app_inv_r in F. destruct F as (p1 & p2' & _ & F2 & _).
    inversion F2 as [| ph t1 p2 l2' Hok _]; subst.
    destruct t as [x | | R c k]; simpl in Ht; try discriminate.
    destruct (exec e c (mem s)) as [r w1 | | w1] eqn:E;
      [| discriminate | destruct (sub_no_oops _ _ _ _ _ _ _ Hok E)].
    injection Ht as <- <-. apply G.
    unfold exec in E. destruct (perform e c (mem s)) as [r' w2 | |] eqn:P;
      try discriminate. injection E as <- _.
    destruct c; simpl; auto. destruct f; simpl; auto.
    simpl in P. injection P as <- _. exact Hv.
Qed.

(** A submitter that has not returned and has not crashed can take its
    next step. *)
Lemma sub_never_stuck ph t e w :
  sub_ok ph t -> not_ret t -> t <> Oops -> tstep e t w <> None.
Proof.
  intros Hok Hn Ho.
  destruct t as [a | | R c k]; simpl in *; try contradiction; try congruence.
  unfold exec.
  destruct c; simpl; try discriminate;
    first [specialize (Hok tt) | specialize (Hok 0) | specialize (Hok true)
          | specialize (Hok NULL) | specialize (Hok None)];
    simpl in Hok; try contradiction;
    try (destruct v; try contradiction);
    destruct ph; try contradiction.
  all: try discriminate.
  all: try (destruct (env_split e); discriminate).
  all: try (destruct (env_clone e); discriminate).
  all: try (match goal with |- context [if ?c then _ else _] => destruct c end; discriminate).
Qed.

Lemma submitters_can_step s t e :
  reachable s -> In t (submitters s) -> tstep e t (mem s) <> None.
Proof.
  intros Hr Hin.
  destruct (reachable_invariant _ Hr) as (lph & sphs & ephs & I).
  pose proof (submitters_not_ret _ Hr) as Hn. rewrite Forall_forall in Hn.
  pose proof (submitters_guarded _ Hr) as Hg. rewrite Forall_forall in Hg.
  destruct (Forall2_in_right _ _ _ _ (inv_subs _ _ _ _ I) Hin) as (ph & _ & Hok).
  eapply sub_never_stuck; eauto.
  intros ->. exact (Hg _ Hin).
Qed.

Lemma completers_can_step s t e :
  reachable s -> In t (completers s) -> tstep e t (mem s) <> None.
Proof.
  intros Hr Hin.
  destruct (reachable_invariant _ Hr) as (lph & sphs & ephs & I).
  pose proof (reachable_not_ret _ Hr) as Hn. rewrite Forall_forall in Hn.
  destruct (Forall2_in_right _ _ _ _ (inv_endios _ _ _ _ I) Hin) as (ph & _ & Hok).
  eapply endio_never_stuck; eauto.
Qed.

(** X13.  A request inside [sbdd_submit_bio] never dereferences a [NULL] or
    error handle and never sleeps: every submitter can take its next step,
    whatever the collaborators answer, and while there is one the stored
    handle may be dereferenced. *)
Theorem forwarding_never_stuck (s : system) :
  reachable s ->
  Forall (fun t => t <> Oops /\ not_ret t /\ forall e, tstep e t (mem s) <> None)
         (submitters s) /\
  (submitters s <> [] -> valid_ptr (bd_handle (dev (mem s))) = true).
Proof.
  intros Hr. split.
  - rewrite Forall_forall. intros t Hin.
    pose proof (submitters_not_ret _ Hr) as Hn. rewrite Forall_forall in Hn.
    pose proof (submitters_guarded _ Hr) as Hg. rewrite Forall_forall in Hg.
    split; [intros ->; exact (Hg _ Hin) |]. split; [auto |].
    intros e. now apply submitters_can_step.
  - intros Hne.
    destruct (reachable_invariant _ Hr) as (lph & sphs & ephs & I).
    apply (inv_handle _ _ _ _ I).
    destruct (is_quiet lph) eqn:Q; auto.
    destruct (inv_quiet _ _ _ _ I Q) as (Hn & _).
    pose proof (inv_subs _ _ _ _ I) as F. rewrite Hn in F. inversion F. congruence.
Qed.

Lemma forwarding_never_stuck_witness :
  Forall (fun t => t <> Oops /\ not_ret t /\
                   forall e, tstep e t (mem (after (schedule_create ++ [MArrive]))) <> None)
         (submitters (after (schedule_create ++ [MArrive]))) /\
  (submitters (after (schedule_create ++ [MArrive])) <> [] ->
   valid_ptr (bd_handle (dev (mem (after (schedule_create ++ [MArrive]))))) = true).
Proof.
  apply (forwarding_never_stuck (after (schedule_create ++ [MArrive]))).
  apply after_reachable.
Defined.

(** X14.  When the lifecycle thread cannot take a step, it is in the
    [wait_event] of [sbdd_delete] with the flag set and the counter
    positive, and a submitter, the backing device or a completion handler
    can take one: the wait is never a deadlock. *)
Theorem deletion_wait_is_not_a_deadlock (s : system) (e : env) :
  reachable s ->
  not_ret (life s) -> life s <> Oops ->
  tstep e (life s) (mem s) = None ->
  (exists k, life s = Call (wait_event_zero a_refs_cnt) k) /\
  deleting (dev (mem s)) = 1 /\
  0 < refs_cnt (dev (mem s)) /\
  exists a s', a <> Lifecycle /\ a <> Arrival /\ step s a s'.
Proof.
  intros Hr Hn Ho Hstuck.
  destruct (reachable_invariant _ Hr) as (lph & sphs & ephs & I).
  pose proof (inv_life _ _ _ _ I) as Hok.
  pose proof (inv_refs _ _ _ _ I) as R.
  pose proof (inv_deleting _ _ _ _ I) as D.
  pose proof (held_bound _ _ _ _ I) as HB.
  pose proof (holds_sub_bound sphs) as HS.
  pose proof (holds_endio_bound ephs) as HE.
  pose proof (Forall2_length _ _ _ (inv_subs _ _ _ _ I)) as LS.
  pose proof (Forall2_length _ _ _ (inv_endios _ _ _ _ I)) as LE.
  destruct (life s) as [x | | R0 c k] eqn:EL; simpl in *; try contradiction; try congruence.
  unfold exec in Hstuck.
  destruct (perform e c (mem s)) as [r w1 | | w1] eqn:P; try discriminate.
  destruct c; simpl in P; split_hyp P; split_ptr P.
  unfold life_ok in Hok. simpl in Hok. specialize (Hok tt).
  destruct v; simpl in Hok; try contradiction.
  destruct lph; simpl in Hok; try contradiction.
  simpl in *. to_prop.
  split; [eexists; reflexivity |]. split; [assumption |]. split; [lia |].
  unfold held in R.
  destruct (backing (mem s)) as [| c l2] eqn:Eb.
  - destruct (completers s) as [| t l] eqn:Ec.
    + destruct (submitters s) as [| t l] eqn:Es.
      * simpl in *. exfalso. destruct sphs, ephs; simpl in *; try discriminate.
        rewrite ?sumZ_nil in *. lia.
      * assert (Hin : In t (submitters s)) by (rewrite Es; now left).
        destruct (tstep e t (mem s)) as [[t' w'] |] eqn:T;
          [| exfalso; revert T; now apply submitters_can_step].
        exists Submitter. eexists. split; [discriminate |]. split; [discriminate |].
        apply (step_submit s e [] t l t' w'); assumption.
    + assert (Hin : In t (completers s)) by (rewrite Ec; now left).
      destruct (tstep e t (mem s)) as [[t' w'] |] eqn:T;
        [| exfalso; revert T; now apply completers_can_step].
      exists Completer. eexists. split; [discriminate |]. split; [discriminate |].
      apply (step_endio s e [] t l t' w'); assumption.
  - exists Backing. eexists. split; [discriminate |]. split; [discriminate |].
    apply (step_backing s [] c l2 BLK_STS_OK). assumption.
Qed.

Lemma deletion_wait_is_not_a_deadlock_witness :
  (exists k, life (after schedule_exit_waits) = Call (wait_event_zero a_refs_cnt) k) /\
  deleting (dev (mem (after schedule_exit_waits))) = 1 /\
  0 < refs_cnt (dev (mem (after schedule_exit_waits))) /\
  exists a s', a <> Lifecycle /\ a <> Arrival /\ step (after schedule_exit_waits) a s'.
Proof.
  apply (deletion_wait_is_not_a_deadlock (after schedule_exit_waits) env_healthy).
  - apply after_reachable.
  - vm_compute. exact I.
  - vm_compute. discriminate.
  - vm_compute. reflexivity.
Defined.

Section AtMost.
Variable f : event -> bool.
Hypothesis f_release :
  forall ev, f ev = true -> is_disk_release ev || is_handle_release ev = true.

(** What is left of the lifecycle thread's budget of release calls. *)
Lemma at_most_invariant s :
  at_most f 1 module_life ->
  reachable s ->
  exists n, at_most f n (life s) /\
            (length (filter f (trace (mem s))) + n = 1)%nat.
Proof.
  intros B0. induction 1 as [| s a s' Hr IH Hstep Hb].
  - exists 1%nat. split; [exact B0 | reflexivity].
  - destruct IH as (n & Bn & Hc).
    destruct (reachable_invariant _ Hr) as (lph & sphs & ephs & I).
    assert (Hother : forall ev, is_disk_release ev || is_handle_release ev = false ->
                                f ev = false).
    { intros ev Hev. destruct (f ev) eqn:F; auto. apply f_release in F. congruence. }
    destruct Hstep as [s e t' w' Ht | s Hreg | s e l1 t l2 t' w' Hs Ht
                      | s l1 c l2 st Hbk | s e l1 t l2 t' w' Hs Ht]; simpl.
    + destruct (life s) as [x | | R c k]; simpl in Ht; try discriminate.
      unfold exec in Ht.
      destruct (perform e c (mem s)) as [r w1 | | w1] eqn:P; [| discriminate |].
      * injection Ht as <- <-. simpl in Bn. destruct Bn as [_ Bn]. specialize (Bn r).
        simpl. rewrite (perform_trace _ _ _ _ _ P).
        destruct (f (Ev c r)).
        -- destruct n as [| n']; [contradiction |]. exists n'. split; [assumption |].
           simpl. lia.
        -- exists n. auto.
      * injection Ht as <- <-. simpl in Bn. destruct Bn as [Bo _].
        simpl. rewrite (perform_oops _ _ _ _ P).
        destruct (f (EvOops c)).
        -- destruct n as [| n']; [now destruct (Bo eq_refl) |].
           exists n'. split; [exact Logic.I |]. simpl. lia.
        -- exists n. split; [exact Logic.I | assumption].
    + exists n. rewrite Hother by reflexivity. auto.
    + pose proof (inv_subs _ _ _ _ I) as F. rewrite Hs in F.
      apply Forall2_app_inv_r in F. destruct F as (p1 & p2' & F1 & F2 & ->).
      inversion F2 as [| ph t0 p2 l2' Hok F3]; subst.
      destruct (sub_step_frame _ _ _ _ _ _ Hok Ht) as (_ & (ev' & -> & Hn) & _).
      exists n. simpl. rewrite Hother by assumption. auto.
    + exists n. rewrite Hother by reflexivity. auto.
    + pose proof (inv_endios _ _ _ _ I) as F. rewrite Hs in F.
      apply Forall2_app_inv_r in F. destruct F as (p1 & p2' & F1 & F2 & ->).
      inversion F2 as [| ph t0 p2 l2' Hok F3]; subst.
      destruct (endio_step_frame _ _ _ _ _ _ Hok Ht) as (_ & (ev' & -> & Hn)).
      exists n. simpl. rewrite Hother by assumption. auto.
Qed.
End AtMost.

Ltac at_most_step :=
  match goal with
  | |- True => exact I
  | |- _ /\ _ => split
  | |- false = true -> _ => discriminate
  | |- true = true -> _ => intros _; discriminate
  | |- context [non_null ?x] => is_var x; destruct x
  | |- context [IS_ERR ?x] => is_var x; destruct x
  | |- context [valid_ptr ?x] => is_var x; destruct x
  | |- context [?x =? 0] => is_var x; destruct x
  | |- forall _ : unit, _ => intros []
  | |- forall _, _ => intro
  end; cbn.

Lemma module_life_del_gendisk_once : at_most is_del_gendisk 1 module_life.
Proof.
  unfold module_life, sbdd_init, sbdd_exit, sbdd_create, sbdd_delete, pr_info, pr_err, deref.
  cbn. repeat at_most_step.
Qed.

Lemma module_life_put_disk_once : at_most is_put_disk 1 module_life.
Proof.
  unfold module_life, sbdd_init, sbdd_exit, sbdd_create, sbdd_delete, pr_info, pr_err, deref.
  cbn. repeat at_most_step.
Qed.

Lemma module_life_bdev_release_once : at_most is_handle_release 1 module_life.
Proof.
  unfold module_life, sbdd_init, sbdd_exit, sbdd_create, sbdd_delete, pr_info, pr_err, deref.
  cbn. repeat at_most_step.
Qed.

(** X15.  In every execution, whatever the interleaving and the answers of
    the collaborators, [del_gendisk], [put_disk] and [bdev_release] are each
    called at most once. *)
Theorem each_resource_released_at_most_once (s : system) :
  reachable s ->
  count is_del_gendisk (trace (mem s)) <= 1 /\
  count is_put_disk (trace (mem s)) <= 1 /\
  count is_handle_release (trace (mem s)) <= 1.
Proof.
  intros Hr. unfold count.
  destruct (at_most_invariant is_del_gendisk) with (s := s) as (n1 & _ & H1);
    [| apply module_life_del_gendisk_once | assumption |].
  { intros [R [] r | R [] | |]; simpl; auto; discriminate. }
  destruct (at_most_invariant is_put_disk) with (s := s) as (n2 & _ & H2);
    [| apply module_life_put_disk_once | assumption |].
  { intros [R [] r | R [] | |]; simpl; auto; discriminate. }
  destruct (at_most_invariant is_handle_release) with (s := s) as (n3 & _ & H3);
    [| apply module_life_bdev_release_once | assumption |].
  { intros ev ->. apply orb_true_r. }
  repeat split; lia.
Qed.

Lemma each_resource_released_at_most_once_witness :
  count is_del_gendisk (trace (mem (after schedule_unload))) <= 1 /\
  count is_put_disk (trace (mem (after schedule_unload))) <= 1 /\
  count is_handle_release (trace (mem (after schedule_unload))) <= 1.
Proof.
  apply (each_resource_released_at_most_once (after schedule_unload)).
  apply after_reachable.
Defined.
